(** * Quizzy: the PDF chunking script [scripts/process-pdf.py]

    A shallow embedding of the text cleaner, the chunker, the chunk writer
    and the accumulation loop of [main], with the properties of the
    specification stated over them.

    Python values are modelled as follows.
    - A [str] is the list of its Unicode code points, each a [Z].
    - A Python [int] is a [Z]; list lengths are converted with [len].
    - A chunk dictionary is a record; the key ["source"], which only [main]
      adds, is an [option].
    - The [while] loop of [create_chunks] is run with a bound on the number
      of iterations and returns [None] when the bound is hit.
    - An exception that the script does not catch is [None] for
      [save_chunks] and the outcome [Raised] for [main]. *)

From Stdlib Require Import String Ascii.
From Stdlib Require Import ZArith List Lia Bool.
From Stdlib Require Import Sorting.Sorted.
From Equations Require Import Equations.
Import ListNotations.
Open Scope Z_scope.

(** ** Strings and slices *)

Definition str : Type := list Z.

(** The code points of an ASCII literal. *)
Definition of_string (s : string) : str :=
  map (fun a => Z.of_N (N_of_ascii a)) (list_ascii_of_string s).

(** Python's [len]. *)
Definition len {A : Type} (s : list A) : Z := Z.of_nat (length s).

(** Index adjustment of a slice bound: a negative bound counts from the end,
    and the result is clipped to [0 .. n]. *)
Definition clamp_index (n i : Z) : Z :=
  if i <? 0 then Z.max (i + n) 0 else Z.min i n.

(** Python's [s[lo:hi]]. *)
Definition slice {A : Type} (s : list A) (lo hi : Z) : list A :=
  let lo' := clamp_index (len s) lo in
  let hi' := clamp_index (len s) hi in
  firstn (Z.to_nat (hi' - lo')) (skipn (Z.to_nat lo') s).

(** Python's [s.rfind(c)] for a one-character needle: the highest index of
    [c] in [s], or [-1]. *)
Fixpoint rfind (c : Z) (s : str) : Z :=
  match s with
  | [] => -1
  | x :: r =>
      let k := rfind c r in
      if 0 <=? k then k + 1 else if x =? c then 0 else -1
  end.

Fixpoint drop_while {A : Type} (p : A -> bool) (s : list A) : list A :=
  match s with
  | [] => []
  | c :: r => if p c then drop_while p r else s
  end.

(** ** Character classes *)

Definition NL : Z := 10.
Definition SP : Z := 32.
Definition DOT : Z := 46.

Definition in_range (lo hi c : Z) : bool := (lo <=? c) && (c <=? hi).

(** The class [[\x00-\x08\x0b\x0c\x0e-\x1f\x7f-\x9f]] of [clean_text]. *)
Definition is_ctrl (c : Z) : bool :=
  in_range 0x00 0x08 c || (c =? 0x0b) || (c =? 0x0c)
  || in_range 0x0e 0x1f c || in_range 0x7f 0x9f c.

(** Unicode white space as CPython decides it, for [\s] in a [str] pattern
    and for [str.strip()] alike. *)
Definition is_space (c : Z) : bool :=
  in_range 0x09 0x0d c || in_range 0x1c 0x1f c || (c =? 0x20)
  || (c =? 0x85) || (c =? 0xa0) || (c =? 0x1680)
  || in_range 0x2000 0x200a c || (c =? 0x2028) || (c =? 0x2029)
  || (c =? 0x202f) || (c =? 0x205f) || (c =? 0x3000).

(** ** [str.strip()] *)

Definition lstrip (s : str) : str := drop_while is_space s.

Fixpoint rstrip (s : str) : str :=
  match s with
  | [] => []
  | c :: r =>
      match rstrip r with
      | [] => if is_space c then [] else [c]
      | r' => c :: r'
      end
  end.

Definition strip (s : str) : str := rstrip (lstrip s).

(** ** [clean_text] *)

(** [re.sub(r'[\x00-\x08\x0b\x0c\x0e-\x1f\x7f-\x9f]', '', text)]: every
    character of the class is deleted. *)
Definition sub_ctrl (s : str) : str := filter (fun c => negb (is_ctrl c)) s.

(** [re.sub(r'\s+', ' ', text)]: scanning from the left, a white-space
    character starts a match that extends over the whole run; the run is
    replaced by one space and the scan goes on behind it. *)
Equations? sub_ws (s : str) : str by wf (length s) lt :=
  sub_ws [] := [];
  sub_ws (c :: r) with is_space c => {
    | true := SP :: sub_ws (drop_while is_space r);
    | false := c :: sub_ws r }.
Proof.
  all: clear sub_ws; simpl; try lia.
  induction r as [|d r IH]; simpl; [lia|].
  destruct (is_space d); simpl; lia.
Qed.

(** The length of the match of [\s*\n] at the head of [r]: it ends with the
    last newline of the leading white-space run of [r], if that run has a
    newline ([\s*] is greedy and gives characters back until [\n] fits). *)
Fixpoint blank_len (r : str) : option nat :=
  match r with
  | [] => None
  | c :: r' =>
      if is_space c then
        match blank_len r' with
        | Some k => Some (S k)
        | None => if c =? NL then Some 1%nat else None
        end
      else None
  end.

(** [re.sub(r'\n\s*\n', '\n\n', text)]: at a newline from which the pattern
    matches, the match is replaced by two newlines and the scan goes on
    behind it; any other character is copied. *)
Equations? sub_blank_lines (s : str) : str by wf (length s) lt :=
  sub_blank_lines [] := [];
  sub_blank_lines (c :: r) with (if c =? NL then blank_len r else None) => {
    | Some k := NL :: NL :: sub_blank_lines (skipn k r);
    | None := c :: sub_blank_lines r }.
Proof.
  rewrite length_skipn. simpl. lia.
Qed.

Definition clean_text (text : str) : str :=
  let text := sub_ctrl text in
  let text := sub_ws text in
  let text := sub_blank_lines text in
  strip text.

(** ** Pages and chunks *)

(** A page dictionary, with the keys ["page"] and ["text"]. *)
Record Page : Type := mkPage { p_page : Z; p_text : str }.

(** A chunk dictionary, with the keys ["id"], ["page"], ["text"] and, once
    [main] has tagged it, ["source"]. *)
Record Chunk : Type :=
  mkChunk { c_id : Z; c_page : Z; c_text : str; c_source : option string }.

(** Configuration constants of the script. *)
Definition CHUNK_SIZE : Z := 500.
Definition CHUNK_OVERLAP : Z := 100.
Definition CHUNKS_PER_FILE : Z := 100.

(** [extract_text_pypdf2] and [extract_text_pdfplumber]: the PDF library
    yields the text of each page ([page.extract_text() or ""]), here the list
    [raw]; the pages are numbered from 1 in that order. *)
Fixpoint extract_from (i : Z) (raw : list str) : list Page :=
  match raw with
  | [] => []
  | text :: rest => mkPage (i + 1) (strip text) :: extract_from (i + 1) rest
  end.

Definition extract_text (raw : list str) : list Page := extract_from 0 raw.

(** ** [create_chunks] *)

(** A loop [while cond(st): st = body(st)], run for at most [fuel]
    iterations of the body. *)
Fixpoint while {St : Type} (fuel : nat) (cond : St -> bool) (body : St -> St)
    (st : St) : option St :=
  if cond st then
    match fuel with
    | O => None
    | S fuel' => while fuel' cond body (body st)
    end
  else Some st.

(** The variables that the [while] loop of [create_chunks] updates. *)
Record LoopState : Type :=
  mkLoop { start : Z; chunk_id : Z; chunks : list Chunk }.

(** Lines 103-114: the candidate window at [start], cut behind the last
    period or newline when that lies in its second half; the result is
    [(chunk_text, end)].  The test [break_point > chunk_size * 0.5] compares
    an integer to a float, and is [chunk_size < 2 * break_point]. *)
Definition window (text : str) (chunk_size start : Z) : str * Z :=
  let end_ := start + chunk_size in
  let chunk_text := slice text start end_ in
  if end_ <? len text then
    let last_period := rfind DOT chunk_text in
    let last_newline := rfind NL chunk_text in
    let break_point := Z.max last_period last_newline in
    if chunk_size <? 2 * break_point then
      (slice chunk_text 0 (break_point + 1), start + break_point + 1)
    else (chunk_text, end_)
  else (chunk_text, end_).

(** Lines 103-125: one iteration of the loop. *)
Definition while_body (text : str) (page_num chunk_size overlap : Z)
    (st : LoopState) : LoopState :=
  let '(chunk_text, end_) := window text chunk_size (start st) in
  let start' := if end_ <? len text then end_ - overlap else len text in
  match strip chunk_text with
  | [] => mkLoop start' (chunk_id st) (chunks st)
  | t => mkLoop start' (chunk_id st + 1)
           (chunks st ++ [mkChunk (chunk_id st) page_num t None])
  end.

Definition while_cond (text : str) (st : LoopState) : bool :=
  start st <? len text.

(** Lines 94-125: the body of the loop over the pages, from the current
    [chunk_id] and [chunks]. *)
Definition for_body (fuel : nat) (chunk_size overlap : Z)
    (acc : Z * list Chunk) (page_data : Page) : option (Z * list Chunk) :=
  let page_num := p_page page_data in
  let text := clean_text (p_text page_data) in
  match text with
  | [] => Some acc
  | _ =>
      match while fuel (while_cond text)
              (while_body text page_num chunk_size overlap)
              (mkLoop 0 (fst acc) (snd acc)) with
      | None => None
      | Some st => Some (chunk_id st, chunks st)
      end
  end.

Fixpoint for_pages (fuel : nat) (chunk_size overlap : Z)
    (pages : list Page) (acc : Z * list Chunk) : option (Z * list Chunk) :=
  match pages with
  | [] => Some acc
  | page_data :: rest =>
      match for_body fuel chunk_size overlap acc page_data with
      | None => None
      | Some acc' => for_pages fuel chunk_size overlap rest acc'
      end
  end.

(** [create_chunks(pages, chunk_size, overlap)]; [None] when a page needs
    more than [fuel] iterations. *)
Definition create_chunks (fuel : nat) (pages : list Page)
    (chunk_size overlap : Z) : option (list Chunk) :=
  match for_pages fuel chunk_size overlap pages (0, []) with
  | None => None
  | Some acc => Some (snd acc)
  end.

(** ** [save_chunks] *)

(** The [n] consecutive integers from [a] on, and Python's [range(n)]. *)
Fixpoint iota (a : Z) (n : nat) : list Z :=
  match n with
  | O => []
  | S n' => a :: iota (a + 1) n'
  end.

Definition range (n : Z) : list Z := iota 0 (Z.to_nat n).

(** The code points that UTF-8 does not encode: the surrogates. *)
Definition is_surrogate (c : Z) : bool := in_range 0xd800 0xdfff c.

(** Whether [s.encode('utf-8')] succeeds. *)
Definition utf8_encodable (s : str) : bool :=
  forallb (fun c => negb (is_surrogate c)) s.

(** Lines 148-149: [json.dump(file_chunks, f, ensure_ascii=False, indent=2)]
    into a file opened with [encoding='utf-8'].  The texts go to the file as
    they are, so the dump raises [UnicodeEncodeError], leaving the file cut
    short, when a text has a surrogate; [dump_ok] tells whether the file is
    written.  The ids and the pages are integers, and a source is the name
    of a file, a string of characters below U+0100, which UTF-8 encodes. *)
Definition dump_ok (file_chunks : list Chunk) : bool :=
  forallb (fun c => utf8_encodable (c_text c)) file_chunks.

(** Lines 142-151: the batches are written one after the other; [None]
    when a dump raises, which ends the loop with the files written so far
    left in the directory. *)
Fixpoint write_files (batches : list (Z * list Chunk))
    : option (list (Z * list Chunk)) :=
  match batches with
  | [] => Some []
  | f :: rest =>
      if dump_ok (snd f) then
        match write_files rest with
        | Some written => Some (f :: written)
        | None => None
        end
      else None
  end.

(** [save_chunks(chunks, output_dir, chunks_per_file)].  The batch files
    [chunks_*.json] found in the directory are unlinked first, so the batch
    files of the directory after a call that returns are the ones written
    here: the result lists them in the order of writing, [(i, file_chunks)]
    for [chunks_<i>.json], next to the returned [num_files].  [None] is an
    exception: [ZeroDivisionError] for a zero [chunks_per_file], or the
    [UnicodeEncodeError] of a dump.  The directory is taken to be one that
    can be created and written. *)
Definition save_chunks (chunks : list Chunk) (chunks_per_file : Z)
    : option (list (Z * list Chunk) * Z) :=
  if chunks_per_file =? 0 then None
  else
    let num_files := (len chunks + chunks_per_file - 1) / chunks_per_file in
    let batch_of (i : Z) :=
      let start_idx := i * chunks_per_file in
      let end_idx := Z.min ((i + 1) * chunks_per_file) (len chunks) in
      (i, slice chunks start_idx end_idx) in
    match write_files (map batch_of (range num_files)) with
    | Some files => Some (files, num_files)
    | None => None
    end.

(** ** The accumulation loop of [main] *)

(** An input PDF: the name of the file and the page texts that the PDF
    library extracts from it. *)
Record Pdf : Type := mkPdf { pdf_name : string; pdf_raw : list str }.

(** Lines 217-219: the update of one chunk, [offset] being
    [len(all_chunks)]. *)
Definition retag (offset : Z) (name : string) (chunk : Chunk) : Chunk :=
  mkChunk (offset + c_id chunk) (c_page chunk) (c_text chunk) (Some name).

(** Lines 200-221: the body of the loop over the PDF files, on
    [(all_chunks, all_pages)]. *)
Definition main_body (fuel : nat) (acc : list Chunk * list Page)
    (pdf : Pdf) : option (list Chunk * list Page) :=
  let pages := extract_text (pdf_raw pdf) in
  let all_pages := snd acc ++ pages in
  match create_chunks fuel pages CHUNK_SIZE CHUNK_OVERLAP with
  | None => None
  | Some chunks =>
      let chunks := map (retag (len (fst acc)) (pdf_name pdf)) chunks in
      Some (fst acc ++ chunks, all_pages)
  end.

Fixpoint main_loop (fuel : nat) (pdf_files : list Pdf)
    (acc : list Chunk * list Page) : option (list Chunk * list Page) :=
  match pdf_files with
  | [] => Some acc
  | pdf :: rest =>
      match main_body fuel acc pdf with
      | None => None
      | Some acc' => main_loop fuel rest acc'
      end
  end.

(** [all_chunks] as [main] hands it to [save_chunks]. *)
Definition main_chunks (fuel : nat) (pdf_files : list Pdf)
    : option (list Chunk) :=
  match main_loop fuel pdf_files ([], []) with
  | None => None
  | Some acc => Some (fst acc)
  end.

(** ** [save_metadata] and [main] *)

(** The dictionary that [save_metadata] writes to [metadata.json]. *)
Record Metadata : Type := mkMetadata {
  m_version : string;
  m_source : string;
  m_processedAt : string;
  m_totalChunks : Z;
  m_totalPages : Z;
  m_chunkSize : Z;
  m_chunkOverlap : Z
}.

(** [save_metadata(chunks, pages, output_dir, pdf_name)]; [now] stands for
    [datetime.now().isoformat()].  The dictionary is written to the file and
    returned. *)
Definition save_metadata (now : string) (chunks : list Chunk)
    (pages : list Page) (pdf_name : string) : Metadata :=
  mkMetadata "4.0" pdf_name now (len chunks) (len pages)
    CHUNK_SIZE CHUNK_OVERLAP.

(** A file that [glob] finds in the source directory: a PDF that the
    library reads, or a file on which the extractor raises ([PdfReadError]
    and the like). *)
Inductive Source : Type :=
| Readable (pdf : Pdf)
| Unreadable (name : string).

Definition source_name (f : Source) : string :=
  match f with
  | Readable pdf => pdf_name pdf
  | Unreadable name => name
  end.

(** How a run of [main] ends: [sys.exit(status)], an exception that nothing
    catches, or the end of the function, with the batch files and the
    metadata written and the three numbers of the printed summary. *)
Inductive Outcome : Type :=
| Exit (status : Z)
| Raised
| Completed (files : list (Z * list Chunk)) (metadata : Metadata)
    (pages_processed chunks_total files_generated : Z).

(** Lines 199-222: the loop over the files; the inner [None] is the
    exception of an extractor, which [main] does not catch. *)
Fixpoint main_files (fuel : nat) (source_files : list Source)
    (acc : list Chunk * list Page)
    : option (option (list Chunk * list Page)) :=
  match source_files with
  | [] => Some (Some acc)
  | Unreadable _ :: _ => Some None
  | Readable pdf :: rest =>
      match main_body fuel acc pdf with
      | None => None
      | Some acc' => main_files fuel rest acc'
      end
  end.

(** [main()], for the files found in the source directory.  The standard
    output and the output directory are taken to accept what is written to
    them. *)
Definition main (fuel : nat) (now : string) (source_files : list Source)
    : option Outcome :=
  match source_files with
  | [] => Some (Exit 1)
  | _ :: _ =>
      match main_files fuel source_files ([], []) with
      | None => None
      | Some None => Some Raised
      | Some (Some (all_chunks, all_pages)) =>
          match save_chunks all_chunks CHUNKS_PER_FILE with
          | None => Some Raised
          | Some (files, num_files) =>
              let pdf_names :=
                String.concat ", " (map source_name source_files) in
              let metadata :=
                save_metadata now all_chunks all_pages pdf_names in
              Some (Completed files metadata (len all_pages)
                      (len all_chunks) (num_files + 1))
          end
      end
  end.

(** * Vocabulary of the properties *)

(** [s] occurs in [t] as a contiguous piece. *)
Definition substring {A : Type} (s t : list A) : Prop :=
  exists pre post, t = pre ++ s ++ post.

(** A character as the first two substitutions leave it: outside the deleted
    class, and a space if it is white space at all. *)
Definition plain (c : Z) : Prop :=
  is_ctrl c = false /\ (is_space c = true -> c = SP).

(** No white-space character is followed by another one. *)
Fixpoint single_spaced (s : str) : Prop :=
  match s with
  | [] => True
  | c :: r =>
      (is_space c = true ->
       match r with [] => True | d :: _ => is_space d = false end)
      /\ single_spaced r
  end.

Definition clean_form (s : str) : Prop := Forall plain s /\ single_spaced s.

(** A character that [clean_text] neither deletes nor treats as white
    space. *)
Definition visible (c : Z) : bool := negb (is_ctrl c) && negb (is_space c).

(** What the iteration of the loop on [text] from [st] appends to
    [chunks]. *)
Definition emitted (text : str) (page_num chunk_size : Z) (st : LoopState)
    : list Chunk :=
  match strip (fst (window text chunk_size (start st))) with
  | [] => []
  | t => [mkChunk (chunk_id st) page_num t None]
  end.

(** The properties of a chunk that the loop on [text] appends. *)
Definition page_chunk (text : str) (page_num chunk_size : Z) (c : Chunk)
    : Prop :=
  c_page c = page_num /\ c_source c = None /\ c_text c <> []
  /\ substring (c_text c) text
  /\ (0 <= chunk_size -> len (c_text c) <= chunk_size).

(** The occurrence of the text of [c] in [text] that holds position [i]. *)
Definition covers (text : str) (c : Chunk) (i : nat) : Prop :=
  exists pre post,
    text = pre ++ c_text c ++ post
    /\ (length pre <= i < length pre + length (c_text c))%nat.

(** The properties of a chunk that [create_chunks] emits for [pages]. *)
Definition chunk_of (pages : list Page) (chunk_size : Z) (c : Chunk) : Prop :=
  exists p,
    In p pages /\ page_chunk (clean_text (p_text p)) (p_page p) chunk_size c.

(** The iterations that the loops of [create_chunks] need at most when the
    overlap is at most half of the chunk size. *)
Definition pages_fuel (pages : list Page) : nat :=
  fold_right (fun p n => Nat.max (length (clean_text (p_text p))) n)
    0%nat pages.

(** The iterations that the runs of [create_chunks] in [main] need at
    most. *)
Definition main_fuel (pdf_files : list Pdf) : nat :=
  fold_right
    (fun pdf n => Nat.max (pages_fuel (extract_text (pdf_raw pdf))) n)
    0%nat pdf_files.

(** The batch that [save_chunks] writes to file [i], for the list [l] and
    the batch size [B]. *)
Definition batch (A : Type) (l : list A) (B i : Z) : list A :=
  slice l (i * B) (Z.min ((i + 1) * B) (len l)).

(** The number of files: [(len l + B - 1) // B]. *)
Definition num_batches (A : Type) (l : list A) (B : Z) : Z :=
  (len l + B - 1) / B.

(** The properties of a chunk that [main] hands to [save_chunks], for the
    PDF files of the run. *)
Definition main_chunk (pdf_files : list Pdf) (c : Chunk) : Prop :=
  exists pdf t,
    In pdf pdf_files
    /\ c_source c = Some (pdf_name pdf)
    /\ 1 <= c_page c <= len (pdf_raw pdf)
    /\ nth_error (pdf_raw pdf) (Z.to_nat (c_page c - 1)) = Some t
    /\ c_text c <> []
    /\ len (c_text c) <= CHUNK_SIZE
    /\ substring (c_text c) (clean_text (strip t)).


(** ** Inputs of the scenarios *)

Definition sentences : str :=
  of_string "Sentence one. Sentence two. Sentence three.".

(** The state of the loop after its first iteration on the page of the
    scenario, with chunk size 20 and overlap [overlap]. *)
Definition first_iteration (overlap : Z) : LoopState :=
  while_body (clean_text sentences) 1 20 overlap (mkLoop 0 0 []).

(** Two lines of text with two blank lines between them. *)
Definition blank_lines_text : str :=
  of_string "a" ++ [NL; NL; NL] ++ of_string "b".

Definition short_page : Page := mkPage 7 (of_string "  A short  page. ").

Definition two_pages : list Page :=
  extract_text [of_string "First page. "; of_string " Second page."].

Definition chunks_250 : list Chunk :=
  map (fun i => mkChunk i 1 [DOT] None) (range 250).

Definition pdf_a : Pdf :=
  mkPdf "a.pdf" [of_string "One."; of_string "Two."; of_string "Three."].

Definition pdf_b : Pdf :=
  mkPdf "b.pdf" [of_string "Four."; of_string "Five."].

(** * Examples *)

Example clean_text_ex1 :
  clean_text (of_string "  a  b ") = of_string "a b".
Proof. reflexivity. Qed.

Example sub_blank_lines_ex :
  sub_blank_lines (of_string "a" ++ [NL; SP; NL; NL; SP] ++ of_string "b")
  = of_string "a" ++ [NL; NL; SP] ++ of_string "b".
Proof. reflexivity. Qed.

Example create_chunks_sentences :
  option_map (map c_text) (create_chunks 4 [mkPage 1 sentences] 20 5)
  = Some [of_string "Sentence one."; of_string "one. Sentence two.";
          of_string "two. Sentence three"; of_string "three."].
Proof. reflexivity. Qed.

Example save_chunks_ex :
  save_chunks (map (fun i => mkChunk i 1 [DOT] None) (range 5)) 2
  = Some ([(0, [mkChunk 0 1 [DOT] None; mkChunk 1 1 [DOT] None]);
           (1, [mkChunk 2 1 [DOT] None; mkChunk 3 1 [DOT] None]);
           (2, [mkChunk 4 1 [DOT] None])], 3).
Proof. reflexivity. Qed.

(** * Properties *)

(** ** Lists, slices and [rfind] *)

Lemma substring_trans {A : Type} (s t u : list A) :
  substring s t -> substring t u -> substring s u.
Proof.
  intros (p1 & q1 & ->) (p2 & q2 & ->).
  exists (p2 ++ p1), (q1 ++ q2). now rewrite <- !app_assoc.
Qed.

Lemma substring_In {A : Type} (s t : list A) (x : A) :
  substring s t -> In x s -> In x t.
Proof.
  intros (pre & post & ->) H. apply in_or_app. right.
  apply in_or_app. now left.
Qed.

Lemma substring_length {A : Type} (s t : list A) :
  substring s t -> (length s <= length t)%nat.
Proof. intros (pre & post & ->). rewrite !length_app. lia. Qed.

Lemma firstn_substring {A : Type} (n : nat) (s : list A) :
  substring (firstn n s) s.
Proof. exists [], (skipn n s). simpl. now rewrite firstn_skipn. Qed.

Lemma skipn_substring {A : Type} (n : nat) (s : list A) :
  substring (skipn n s) s.
Proof.
  exists (firstn n s), []. now rewrite app_nil_r, firstn_skipn.
Qed.

Lemma slice_substring {A : Type} (s : list A) (lo hi : Z) :
  substring (slice s lo hi) s.
Proof.
  unfold slice. eapply substring_trans;
    [apply firstn_substring | apply skipn_substring].
Qed.

Lemma slice_length {A : Type} (s : list A) (lo hi : Z) :
  lo <= hi -> len (slice s lo hi) <= hi - lo.
Proof.
  intros H. unfold slice, len, clamp_index.
  rewrite length_firstn.
  destruct (Z.ltb_spec lo 0), (Z.ltb_spec hi 0); lia.
Qed.

Lemma slice_all {A : Type} (s : list A) (hi : Z) :
  len s <= hi -> slice s 0 hi = s.
Proof.
  intros H. unfold slice, clamp_index, len in *. simpl.
  destruct (Z.ltb_spec hi 0); [lia|].
  replace (Z.min 0 (Z.of_nat (length s))) with 0 by lia.
  simpl. apply firstn_all2. lia.
Qed.

Lemma rfind_range (c : Z) (s : str) : -1 <= rfind c s < len s.
Proof.
  unfold len. induction s as [|x r IH]; simpl length; simpl rfind; [lia|].
  destruct (Z.leb_spec 0 (rfind c r)); [lia|].
  destruct (x =? c); lia.
Qed.

Lemma rfind_absent (c : Z) (s : str) : ~ In c s -> rfind c s = -1.
Proof.
  induction s as [|x r IH]; simpl; intros H; [reflexivity|].
  rewrite IH by tauto. simpl.
  destruct (Z.eqb_spec x c); [tauto | reflexivity].
Qed.

(** ** [strip] *)

Lemma drop_while_suffix {A : Type} (p : A -> bool) (s : list A) :
  exists pre, s = pre ++ drop_while p s.
Proof.
  induction s as [|c r [pre IH]]; simpl; [now exists []|].
  destruct (p c); [|now exists []].
  exists (c :: pre). simpl. now f_equal.
Qed.

Lemma drop_while_head {A : Type} (p : A -> bool) (s : list A) (c : A)
    (r : list A) :
  drop_while p s = c :: r -> p c = false.
Proof.
  induction s as [|x s IH]; simpl; [discriminate|].
  destruct (p x) eqn:E; [exact IH|].
  intros [= <- _]. exact E.
Qed.

Lemma drop_while_stop {A : Type} (p : A -> bool) (c : A) (r : list A) :
  p c = false -> drop_while p (c :: r) = c :: r.
Proof. intros H. simpl. now rewrite H. Qed.

Lemma rstrip_cons_keep (c : Z) (r : str) :
  is_space c = false -> rstrip (c :: r) = c :: rstrip r.
Proof. intros H. simpl. rewrite H. now destruct (rstrip r). Qed.

Lemma rstrip_prefix (s : str) : exists post, s = rstrip s ++ post.
Proof.
  induction s as [|c r [post IH]]; simpl; [now exists []|].
  destruct (rstrip r) as [|d r'] eqn:E.
  - destruct (is_space c).
    + now exists (c :: r).
    + exists post. simpl in *. now f_equal.
  - exists post. simpl in *. now f_equal.
Qed.

Lemma rstrip_idem (s : str) : rstrip (rstrip s) = rstrip s.
Proof.
  induction s as [|c r IH]; simpl; [reflexivity|].
  destruct (rstrip r) as [|d r'] eqn:E.
  - destruct (is_space c) eqn:Ec; simpl; [reflexivity | now rewrite Ec].
  - change (rstrip (c :: d :: r')) with
      (match rstrip (d :: r') with
       | [] => if is_space c then [] else [c]
       | x => c :: x
       end).
    now rewrite IH.
Qed.

Lemma strip_substring (s : str) : substring (strip s) s.
Proof.
  unfold strip, lstrip.
  destruct (drop_while_suffix is_space s) as [pre Hpre].
  destruct (rstrip_prefix (drop_while is_space s)) as [post Hpost].
  exists pre, post. now rewrite <- Hpost.
Qed.

Lemma strip_idem (s : str) : strip (strip s) = strip s.
Proof.
  unfold strip at 1. unfold lstrip.
  assert (H : drop_while is_space (strip s) = strip s).
  { unfold strip, lstrip.
    destruct (drop_while is_space s) as [|c r] eqn:E; [reflexivity|].
    pose proof (drop_while_head _ _ _ _ E) as Hc.
    rewrite (rstrip_cons_keep _ _ Hc). now apply drop_while_stop. }
  rewrite H. apply rstrip_idem.
Qed.

(** ** [clean_text] *)

Lemma sub_ws_cons (c : Z) (r : str) :
  sub_ws (c :: r) =
  if is_space c then SP :: sub_ws (drop_while is_space r) else c :: sub_ws r.
Proof. simp sub_ws. destruct (is_space c); reflexivity. Qed.

Lemma sub_blank_lines_cons (c : Z) (r : str) :
  sub_blank_lines (c :: r) =
  match (if c =? NL then blank_len r else None) with
  | Some k => NL :: NL :: sub_blank_lines (skipn k r)
  | None => c :: sub_blank_lines r
  end.
Proof.
  simp sub_blank_lines.
  destruct (if c =? NL then blank_len r else None); reflexivity.
Qed.

Lemma drop_while_In {A : Type} (p : A -> bool) (s : list A) (x : A) :
  In x (drop_while p s) -> In x s.
Proof.
  destruct (drop_while_suffix p s) as [pre H]. intros Hx.
  rewrite H. apply in_or_app. now right.
Qed.

Lemma sub_ws_In (x : Z) (s : str) :
  In x (sub_ws s) -> x = SP \/ (In x s /\ is_space x = false).
Proof.
  funelim (sub_ws s); simpl.
  - tauto.
  - intros [E | Hx]; [now left|].
    match goal with IH : forall y, In y (sub_ws _) -> _ |- _ =>
      destruct (IH _ Hx) as [E | [Hin Hs]] end; [now left|].
    right. split; [right; eapply drop_while_In; eassumption | assumption].
  - intros [E | Hx].
    + subst. right. split; [now left | assumption].
    + match goal with IH : forall y, In y (sub_ws _) -> _ |- _ =>
        destruct (IH _ Hx) as [E | [Hin Hs]] end; [now left|].
      right. split; [now right | assumption].
Qed.

Lemma sub_ws_single_spaced (s : str) : single_spaced (sub_ws s).
Proof.
  funelim (sub_ws s); simpl.
  - exact I.
  - split; [intros _ | assumption].
    destruct (drop_while is_space r) as [|d r'] eqn:E.
    + now simp sub_ws.
    + pose proof (drop_while_head _ _ _ _ E) as Hd.
      rewrite sub_ws_cons, Hd. exact Hd.
  - split; [congruence | assumption].
Qed.

Lemma sub_ctrl_clean (s : str) :
  Forall (fun c => is_ctrl c = false) (sub_ctrl s).
Proof.
  apply Forall_forall. intros c H. apply filter_In in H.
  destruct H as [_ H]. now apply negb_true_iff in H.
Qed.

Lemma sub_ctrl_fixed (s : str) :
  Forall (fun c => is_ctrl c = false) s -> sub_ctrl s = s.
Proof.
  induction 1 as [|c r Hc _ IH]; simpl; [reflexivity|].
  rewrite Hc. simpl. now f_equal.
Qed.

Lemma sub_ws_plain (s : str) :
  Forall (fun c => is_ctrl c = false) s -> Forall plain (sub_ws s).
Proof.
  intros H. apply Forall_forall. intros c Hc.
  destruct (sub_ws_In _ _ Hc) as [-> | [Hin Hs]].
  - split; [reflexivity | trivial].
  - split; [|congruence].
    exact (proj1 (Forall_forall _ _) H c Hin).
Qed.

Lemma sub_ws_fixed (s : str) : clean_form s -> sub_ws s = s.
Proof.
  intros [Hp Hs]. induction s as [|c r IH]; [now simp sub_ws|].
  inversion Hp as [|? ? [_ Hc] Hr]; subst. destruct Hs as [Hn Hs].
  rewrite sub_ws_cons. destruct (is_space c) eqn:E.
  - rewrite (Hc eq_refl). f_equal.
    destruct r as [|d r']; [now simp sub_ws|].
    rewrite drop_while_stop by now apply Hn.
    now apply IH.
  - f_equal. now apply IH.
Qed.

Lemma plain_no_newline (s : str) : Forall plain s -> ~ In NL s.
Proof.
  intros H Hin. apply (proj1 (Forall_forall _ _) H) in Hin.
  destruct Hin as [_ Hin]. specialize (Hin eq_refl). discriminate.
Qed.

Lemma sub_blank_lines_fixed (s : str) : ~ In NL s -> sub_blank_lines s = s.
Proof.
  induction s as [|c r IH]; intros H; [now simp sub_blank_lines|].
  rewrite sub_blank_lines_cons.
  destruct (Z.eqb_spec c NL) as [->|_]; [exfalso; apply H; now left|].
  f_equal. apply IH. intros Hin. apply H. now right.
Qed.

Lemma Forall_substring {A : Type} (P : A -> Prop) (s t : list A) :
  substring s t -> Forall P t -> Forall P s.
Proof.
  intros Hs Ht. apply Forall_forall. intros x Hx.
  apply (proj1 (Forall_forall _ _) Ht). eapply substring_In; eassumption.
Qed.

Lemma single_spaced_suffix (pre s : str) :
  single_spaced (pre ++ s) -> single_spaced s.
Proof. induction pre as [|c r IH]; simpl; [trivial | tauto]. Qed.

Lemma single_spaced_prefix (s post : str) :
  single_spaced (s ++ post) -> single_spaced s.
Proof.
  induction s as [|c r IH]; simpl; [trivial|].
  intros [Hn Hs]. split; [|now apply IH].
  intros Hc. specialize (Hn Hc). now destruct r.
Qed.

Lemma clean_form_substring (s t : str) :
  substring s t -> clean_form t -> clean_form s.
Proof.
  intros Hsub [Hp Hs]. split; [eapply Forall_substring; eassumption|].
  destruct Hsub as (pre & post & ->).
  eapply single_spaced_prefix, single_spaced_suffix. eassumption.
Qed.

Lemma clean_form_subs (text : str) : clean_form (sub_ws (sub_ctrl text)).
Proof.
  split; [apply sub_ws_plain, sub_ctrl_clean | apply sub_ws_single_spaced].
Qed.

Lemma clean_form_fixed (s : str) :
  clean_form s -> sub_blank_lines (sub_ws (sub_ctrl s)) = s.
Proof.
  intros H. pose proof H as [Hp _].
  rewrite sub_ctrl_fixed.
  - rewrite (sub_ws_fixed _ H).
    now apply sub_blank_lines_fixed, plain_no_newline.
  - eapply Forall_impl; [|exact Hp]. now intros c [Hc _].
Qed.

Lemma clean_text_strip_subs (text : str) :
  clean_text text = strip (sub_ws (sub_ctrl text)).
Proof.
  unfold clean_text. f_equal.
  apply sub_blank_lines_fixed, plain_no_newline, clean_form_subs.
Qed.

Lemma clean_text_clean_form (text : str) : clean_form (clean_text text).
Proof.
  rewrite clean_text_strip_subs.
  eapply clean_form_substring; [apply strip_substring | apply clean_form_subs].
Qed.

Lemma clean_text_stripped (text : str) :
  strip (clean_text text) = clean_text text.
Proof. unfold clean_text. apply strip_idem. Qed.

(** C7.  The cleaner is idempotent: cleaning a cleaned text gives it back. *)
Theorem clean_text_idempotent (text : str) :
  clean_text (clean_text text) = clean_text text.
Proof.
  unfold clean_text at 1.
  rewrite (clean_form_fixed _ (clean_text_clean_form text)).
  apply clean_text_stripped.
Qed.

(** C9.  The output of [clean_text] has no newline: its only white space is
    single spaces.  So the search [rfind] for a newline in a window of it
    answers [-1], and the break point of the chunker is the last period. *)
Theorem clean_text_no_newline (text : str) :
  ~ In NL (clean_text text)
  /\ clean_form (clean_text text)
  /\ (forall lo hi : Z, rfind NL (slice (clean_text text) lo hi) = -1)
  /\ (forall chunk_size start : Z,
        let chunk_text := slice (clean_text text) start (start + chunk_size) in
        rfind NL chunk_text = -1
        /\ Z.max (rfind DOT chunk_text) (rfind NL chunk_text)
           = rfind DOT chunk_text).
Proof.
  assert (H : ~ In NL (clean_text text)).
  { apply plain_no_newline, clean_text_clean_form. }
  assert (H' : forall lo hi, rfind NL (slice (clean_text text) lo hi) = -1).
  { intros lo hi. apply rfind_absent. intros Hin. apply H.
    eapply substring_In; [apply slice_substring | exact Hin]. }
  split; [exact H|]. split; [apply clean_text_clean_form|].
  split; [exact H'|]. intros chunk_size start chunk_text.
  split; [apply H'|]. unfold chunk_text. rewrite H'.
  pose proof (rfind_range DOT
                (slice (clean_text text) start (start + chunk_size))).
  lia.
Qed.

(** C3 at two lines with two blank lines between them.  The third
    substitution alone would leave one blank line, but in [clean_text] the
    second substitution has turned every newline into a space before it: the
    cleaned text is "a b", with no blank line in it. *)
Theorem clean_text_loses_blank_lines :
  sub_blank_lines blank_lines_text = of_string "a" ++ [NL; NL] ++ of_string "b"
  /\ sub_ws (sub_ctrl blank_lines_text) = of_string "a b"
  /\ clean_text blank_lines_text = of_string "a b"
  /\ ~ substring [NL; NL] (clean_text blank_lines_text).
Proof.
  split; [reflexivity|]. split; [reflexivity|]. split; [reflexivity|].
  intros H.
  apply (plain_no_newline (clean_text blank_lines_text));
    [apply clean_text_clean_form|].
  eapply substring_In; [exact H | now left].
Qed.

(** ** Consecutive integers *)

Lemma iota_length (a : Z) (n : nat) : length (iota a n) = n.
Proof.
  revert a; induction n as [|n IH]; intros a; simpl; [|rewrite IH];
    reflexivity.
Qed.

Lemma iota_app (a : Z) (n m : nat) :
  iota a (n + m) = iota a n ++ iota (a + Z.of_nat n) m.
Proof.
  revert a; induction n as [|n IH]; intros a.
  - simpl. now rewrite Z.add_0_r.
  - cbn [Nat.add iota app]. rewrite IH. do 3 f_equal. lia.
Qed.

Lemma iota_In (a : Z) (n : nat) (x : Z) :
  In x (iota a n) -> a <= x < a + Z.of_nat n.
Proof.
  revert a; induction n as [|n IH]; intros a; simpl; [tauto|].
  intros [<- | H]; [lia|]. apply IH in H. lia.
Qed.

Lemma iota_sorted (a : Z) (n : nat) : StronglySorted Z.lt (iota a n).
Proof.
  revert a; induction n as [|n IH]; intros a; simpl; constructor.
  - apply IH.
  - apply Forall_forall. intros x H. apply iota_In in H. lia.
Qed.

Lemma iota_NoDup (a : Z) (n : nat) : NoDup (iota a n).
Proof.
  revert a; induction n as [|n IH]; intros a; simpl; constructor.
  - intros H. apply iota_In in H. lia.
  - apply IH.
Qed.

(** ** The loop over one page *)

Lemma while_mono {St : Type} (cond : St -> bool) (body : St -> St)
    (fuel fuel' : nat) (st r : St) :
  (fuel <= fuel')%nat ->
  while fuel cond body st = Some r -> while fuel' cond body st = Some r.
Proof.
  revert fuel' st. induction fuel as [|f IH]; intros fuel' st Hle; simpl.
  - destruct fuel'; simpl; destruct (cond st); congruence.
  - destruct fuel' as [|f']; [lia|]. simpl.
    destruct (cond st); [|trivial]. apply IH. lia.
Qed.

Section PageLoop.

Variables (text : str) (page_num chunk_size overlap : Z).

Lemma while_body_start (st : LoopState) :
  start (while_body text page_num chunk_size overlap st) =
  let end_ := snd (window text chunk_size (start st)) in
  if end_ <? len text then end_ - overlap else len text.
Proof.
  unfold while_body. destruct (window text chunk_size (start st)) as [ct e].
  simpl. now destruct (strip ct).
Qed.

Lemma while_body_chunks (st : LoopState) :
  chunks (while_body text page_num chunk_size overlap st) =
  chunks st ++ emitted text page_num chunk_size st.
Proof.
  unfold while_body, emitted.
  destruct (window text chunk_size (start st)) as [ct e].
  simpl. destruct (strip ct); simpl; [now rewrite app_nil_r | reflexivity].
Qed.

Lemma while_body_chunk_id (st : LoopState) :
  chunk_id (while_body text page_num chunk_size overlap st) =
  chunk_id st + len (emitted text page_num chunk_size st).
Proof.
  unfold while_body, emitted.
  destruct (window text chunk_size (start st)) as [ct e].
  simpl. destruct (strip ct); simpl; unfold len; simpl; lia.
Qed.

Lemma window_substring (start : Z) :
  substring (fst (window text chunk_size start)) text.
Proof.
  unfold window.
  destruct (start + chunk_size <? len text); [|apply slice_substring].
  match goal with |- context [if ?b then _ else _] => destruct b end;
    simpl; [|apply slice_substring].
  eapply substring_trans; apply slice_substring.
Qed.

Lemma window_length (start : Z) :
  0 <= chunk_size -> len (fst (window text chunk_size start)) <= chunk_size.
Proof.
  intros HS.
  pose proof (slice_length text start (start + chunk_size)) as Hl.
  unfold window.
  destruct (start + chunk_size <? len text); simpl; [|lia].
  match goal with |- context [if ?b then _ else _] => destruct b end;
    simpl; [|lia].
  match goal with |- len (slice ?s 0 ?h) <= _ =>
    pose proof (substring_length _ _ (slice_substring s 0 h)) end.
  unfold len in *. lia.
Qed.

Lemma window_progress (start : Z) :
  0 < chunk_size -> 2 * overlap <= chunk_size ->
  start + overlap < snd (window text chunk_size start).
Proof.
  intros HS HO. unfold window.
  destruct (start + chunk_size <? len text); cbn [snd]; [|lia].
  match goal with |- context [if ?b <? ?c then _ else _] =>
    destruct (Z.ltb_spec b c) end; cbn [snd]; lia.
Qed.

Lemma emitted_page_chunk (st : LoopState) :
  Forall (page_chunk text page_num chunk_size)
    (emitted text page_num chunk_size st).
Proof.
  unfold emitted.
  pose proof (strip_substring (fst (window text chunk_size (start st)))) as Hs.
  destruct (strip (fst (window text chunk_size (start st)))) as [|c r] eqn:E;
    constructor; [|constructor].
  unfold page_chunk. simpl. repeat split; try discriminate.
  - eapply substring_trans; [exact Hs | apply window_substring].
  - intros HS. pose proof (window_length (start st) HS).
    apply substring_length in Hs. unfold len in *. lia.
Qed.

Lemma emitted_ids (st : LoopState) :
  map c_id (emitted text page_num chunk_size st)
  = iota (chunk_id st) (length (emitted text page_num chunk_size st)).
Proof.
  unfold emitted.
  now destruct (strip (fst (window text chunk_size (start st)))).
Qed.

(** The result of the loop: the chunks it appends and their numbers. *)
Lemma while_result (fuel : nat) (st st' : LoopState) :
  while fuel (while_cond text)
    (while_body text page_num chunk_size overlap) st = Some st' ->
  exists new,
    chunks st' = chunks st ++ new
    /\ chunk_id st' = chunk_id st + len new
    /\ map c_id new = iota (chunk_id st) (length new)
    /\ Forall (page_chunk text page_num chunk_size) new.
Proof.
  revert st. induction fuel as [|f IH]; intros st; simpl.
  - destruct (while_cond text st); [discriminate|].
    intros [= <-]. exists []. rewrite app_nil_r. unfold len. simpl.
    repeat split; [lia | constructor].
  - destruct (while_cond text st).
    + intros H. apply IH in H. destruct H as (new & Hc & Hi & Hm & Hf).
      rewrite while_body_chunks in Hc. rewrite while_body_chunk_id in Hi, Hm.
      exists (emitted text page_num chunk_size st ++ new).
      rewrite app_assoc. split; [exact Hc|].
      split; [unfold len in *; rewrite length_app; lia|].
      split.
      * rewrite map_app, length_app, iota_app, emitted_ids, Hm. reflexivity.
      * apply Forall_app. split; [apply emitted_page_chunk | exact Hf].
    + intros [= <-]. exists []. rewrite app_nil_r. unfold len. simpl.
      repeat split; [lia | constructor].
Qed.

(** With a positive chunk size and an overlap of at most half of it, the
    loop ends within [len text - start] iterations. *)
Lemma while_terminates (fuel : nat) (st : LoopState) :
  0 < chunk_size -> 2 * overlap <= chunk_size ->
  (Z.to_nat (len text - start st) <= fuel)%nat ->
  exists st',
    while fuel (while_cond text)
      (while_body text page_num chunk_size overlap) st = Some st'.
Proof.
  intros HS HO. revert st. induction fuel as [|f IH]; intros st Hf; simpl;
    unfold while_cond at 1; destruct (Z.ltb_spec (start st) (len text));
    try (eexists; reflexivity); [lia|].
  apply IH. rewrite while_body_start.
  pose proof (window_progress (start st) HS HO) as Hp. simpl.
  destruct (Z.ltb_spec (snd (window text chunk_size (start st))) (len text));
    lia.
Qed.

End PageLoop.

(** ** The loop over the pages *)

Lemma StronglySorted_app {A : Type} (R : A -> A -> Prop) (l1 l2 : list A) :
  StronglySorted R l1 -> StronglySorted R l2 ->
  (forall x y, In x l1 -> In y l2 -> R x y) ->
  StronglySorted R (l1 ++ l2).
Proof.
  intros H1 H2 H. induction H1 as [|a l1 Hs IH Hf]; simpl; [exact H2|].
  constructor.
  - apply IH. intros x y Hx. apply H. now right.
  - apply Forall_app. split; [exact Hf|].
    apply Forall_forall. intros y Hy. apply H; [now left | exact Hy].
Qed.

Lemma StronglySorted_const (a : Z) (l : list Z) :
  Forall (eq a) l -> StronglySorted Z.le l.
Proof.
  induction 1 as [|x l Hx Hl IH]; constructor; [exact IH|].
  subst. eapply Forall_impl; [|exact Hl]. intros y <-. lia.
Qed.

Lemma for_body_result (fuel : nat) (chunk_size overlap : Z)
    (acc acc' : Z * list Chunk) (p : Page) :
  for_body fuel chunk_size overlap acc p = Some acc' ->
  exists new,
    snd acc' = snd acc ++ new
    /\ fst acc' = fst acc + len new
    /\ map c_id new = iota (fst acc) (length new)
    /\ Forall (page_chunk (clean_text (p_text p)) (p_page p) chunk_size) new.
Proof.
  unfold for_body. destruct (clean_text (p_text p)) as [|c r] eqn:E.
  - intros [= <-]. exists []. rewrite app_nil_r. unfold len. simpl.
    repeat split; [lia | constructor].
  - destruct (while _ _ _ _) as [st|] eqn:W; [|discriminate].
    intros [= <-]. apply while_result in W. exact W.
Qed.

Lemma for_pages_result (fuel : nat) (chunk_size overlap : Z)
    (pages : list Page) (acc acc' : Z * list Chunk) :
  for_pages fuel chunk_size overlap pages acc = Some acc' ->
  exists new,
    snd acc' = snd acc ++ new
    /\ fst acc' = fst acc + len new
    /\ map c_id new = iota (fst acc) (length new)
    /\ Forall (chunk_of pages chunk_size) new
    /\ (StronglySorted Z.le (map p_page pages) ->
        StronglySorted Z.le (map c_page new)).
Proof.
  revert acc. induction pages as [|p rest IH]; intros acc; simpl.
  - intros [= <-]. exists []. rewrite app_nil_r. unfold len. simpl.
    repeat split; [lia | constructor | constructor].
  - destruct (for_body fuel chunk_size overlap acc p) as [acc1|] eqn:B;
      [|discriminate].
    intros H. apply IH in H. destruct H as (new2 & Hc2 & Hi2 & Hm2 & Hf2 & Hs2).
    apply for_body_result in B. destruct B as (new1 & Hc1 & Hi1 & Hm1 & Hf1).
    exists (new1 ++ new2). rewrite Hc2, Hc1, Hi2, Hi1, <- app_assoc.
    split; [reflexivity|].
    split; [unfold len; rewrite length_app; lia|].
    split; [rewrite map_app, length_app, iota_app, Hm1, Hm2, Hi1; unfold len;
            reflexivity|].
    split.
    + apply Forall_app. split.
      * eapply Forall_impl; [|exact Hf1]. intros c Hc. exists p.
        split; [now left | exact Hc].
      * eapply Forall_impl; [|exact Hf2]. intros c (q & Hq & Hc). exists q.
        split; [now right | exact Hc].
    + intros Hs. inversion Hs as [|? ? Hs' Hle]; subst.
      rewrite map_app. apply StronglySorted_app.
      * apply (StronglySorted_const (p_page p)).
        apply Forall_map. eapply Forall_impl; [|exact Hf1].
        intros c Hc. symmetry. apply Hc.
      * now apply Hs2.
      * intros x y Hx Hy.
        apply in_map_iff in Hx. destruct Hx as (c & <- & Hc).
        apply in_map_iff in Hy. destruct Hy as (d & <- & Hd).
        apply (proj1 (Forall_forall _ _) Hf1) in Hc. destruct Hc as [-> _].
        apply (proj1 (Forall_forall _ _) Hf2) in Hd.
        destruct Hd as (q & Hq & -> & _).
        apply (proj1 (Forall_forall _ _) Hle). now apply in_map.
Qed.

Lemma for_pages_terminates (fuel : nat) (chunk_size overlap : Z)
    (pages : list Page) (acc : Z * list Chunk) :
  0 < chunk_size -> 2 * overlap <= chunk_size ->
  (pages_fuel pages <= fuel)%nat ->
  exists acc', for_pages fuel chunk_size overlap pages acc = Some acc'.
Proof.
  intros HS HO. revert acc. induction pages as [|p rest IH]; intros acc Hf;
    simpl in *; [eexists; reflexivity|].
  assert (B : exists acc1, for_body fuel chunk_size overlap acc p = Some acc1).
  { unfold for_body. destruct (clean_text (p_text p)) as [|c r] eqn:E;
      [eexists; reflexivity|].
    destruct (while_terminates (c :: r) (p_page p) chunk_size overlap fuel
                (mkLoop 0 (fst acc) (snd acc)) HS HO) as [st ->];
      [|eexists; reflexivity].
    unfold len. simpl start. simpl length in *. lia. }
  destruct B as [acc1 ->]. apply IH. lia.
Qed.

Lemma create_chunks_terminates (fuel : nat) (pages : list Page)
    (chunk_size overlap : Z) :
  0 < chunk_size -> 2 * overlap <= chunk_size ->
  (pages_fuel pages <= fuel)%nat ->
  exists chunks, create_chunks fuel pages chunk_size overlap = Some chunks.
Proof.
  intros HS HO Hf. unfold create_chunks.
  destruct (for_pages_terminates fuel chunk_size overlap pages (0, []) HS HO Hf)
    as [acc ->].
  eexists; reflexivity.
Qed.

Lemma for_pages_app (fuel : nat) (chunk_size overlap : Z)
    (before after : list Page) (acc : Z * list Chunk) :
  for_pages fuel chunk_size overlap (before ++ after) acc
  = match for_pages fuel chunk_size overlap before acc with
    | None => None
    | Some acc' => for_pages fuel chunk_size overlap after acc'
    end.
Proof.
  revert acc. induction before as [|p rest IH]; intros acc; simpl;
    [reflexivity|].
  destruct (for_body fuel chunk_size overlap acc p); [apply IH | reflexivity].
Qed.

(** A result does not depend on the bound under which it was reached. *)
Lemma for_pages_mono (fuel fuel' : nat) (chunk_size overlap : Z)
    (pages : list Page) (acc acc' : Z * list Chunk) :
  (fuel <= fuel')%nat ->
  for_pages fuel chunk_size overlap pages acc = Some acc' ->
  for_pages fuel' chunk_size overlap pages acc = Some acc'.
Proof.
  intros Hle. revert acc. induction pages as [|p rest IH]; intros acc; simpl;
    [trivial|].
  unfold for_body. destruct (clean_text (p_text p)) as [|c r]; [apply IH|].
  destruct (while fuel _ _ _) as [st|] eqn:W; [|discriminate].
  rewrite (while_mono _ _ _ _ _ _ Hle W). apply IH.
Qed.

Lemma create_chunks_mono (fuel fuel' : nat) (pages : list Page)
    (chunk_size overlap : Z) (result : list Chunk) :
  (fuel <= fuel')%nat ->
  create_chunks fuel pages chunk_size overlap = Some result ->
  create_chunks fuel' pages chunk_size overlap = Some result.
Proof.
  intros Hle. unfold create_chunks.
  destruct (for_pages fuel _ _ _ _) as [acc|] eqn:F; [|discriminate].
  now rewrite (for_pages_mono _ _ _ _ _ _ _ Hle F).
Qed.

Lemma create_chunks_result (fuel : nat) (pages : list Page)
    (chunk_size overlap : Z) (chunks : list Chunk) :
  create_chunks fuel pages chunk_size overlap = Some chunks ->
  map c_id chunks = iota 0 (length chunks)
  /\ Forall (chunk_of pages chunk_size) chunks
  /\ (StronglySorted Z.le (map p_page pages) ->
      StronglySorted Z.le (map c_page chunks)).
Proof.
  unfold create_chunks.
  destruct (for_pages _ _ _ _ _) as [acc|] eqn:F; [|discriminate].
  intros [= <-]. apply for_pages_result in F.
  destruct F as (new & Hc & _ & Hm & Hf & Hs). simpl in Hc, Hm.
  rewrite Hc. auto.
Qed.

(** ** The chunker on the sentences of the scenario *)

Lemma sentences_clean : clean_text sentences = sentences.
Proof. reflexivity. Qed.

(** C1, as stated, fails: after the first chunk the window does not start at
    offset 9. *)
Lemma sentences_second_window_not_9 :
  ~ (map c_text (chunks (first_iteration 5)) = [of_string "Sentence one."]
     /\ start (first_iteration 5) = 9).
Proof. intros [_ H]. vm_compute in H. discriminate. Qed.

(** C1, amended.  For the page text "Sentence one. Sentence two. Sentence
    three." with chunk size 20 and overlap 5, the last period of the first
    window is at offset 12, beyond half the chunk size; the window is cut to
    the 13 characters "Sentence one.", which is the first chunk, and the
    second window starts at offset 13 - 5 = 8. *)
Theorem sentences_first_chunk :
  let text := clean_text sentences in
  rfind DOT (slice text 0 20) = 12
  /\ window text 20 0 = (of_string "Sentence one.", 13)
  /\ len (of_string "Sentence one.") = 13
  /\ map c_text (chunks (first_iteration 5)) = [of_string "Sentence one."]
  /\ start (first_iteration 5) = 8
  /\ option_map (fun cs => map c_text (firstn 1 cs))
       (create_chunks 4 [mkPage 1 sentences] 20 5)
     = Some [of_string "Sentence one."].
Proof. vm_compute. repeat split. Qed.

Lemma sentences_loop_stuck (fuel : nat) (st : LoopState) :
  start st = 0 ->
  while fuel (while_cond sentences) (while_body sentences 1 20 13) st = None.
Proof.
  revert st. induction fuel as [|f IH]; intros st H; cbn [while];
    unfold while_cond at 1; rewrite H;
    change (0 <? len sentences) with true; cbn iota; [reflexivity|].
  apply IH. rewrite while_body_start, H. reflexivity.
Qed.

(** C2 at chunk size 20 and overlap 13, which is below 20: on the page of
    the scenario the first window is cut behind offset 12 and the next
    window starts at 13 - 13 = 0 again, so that no number of iterations ends
    the loop. *)
Theorem create_chunks_overlap_13_diverges (fuel : nat) :
  start (first_iteration 13) = 0
  /\ create_chunks fuel [mkPage 1 sentences] 20 13 = None.
Proof.
  split; [reflexivity|].
  unfold create_chunks, for_pages, for_body. cbn [p_text p_page fst snd].
  rewrite sentences_clean.
  change sentences with (83 :: tl sentences) at 1. cbn iota.
  change (83 :: tl sentences) with sentences.
  now rewrite sentences_loop_stuck.
Qed.

(** ** Short pages *)

(** C6.  A page whose cleaned text is not empty and shorter than the chunk
    size gives one chunk, whose text is the cleaned text of the page (which
    is trimmed already).  The iteration of the loop over the pages appends
    that chunk under the next id; a call on that page alone returns it
    alone; and in a call on more pages, the page adds that one chunk to the
    chunks of the pages before it and the call goes on with the pages
    after it. *)
Theorem short_page_one_chunk (fuel : nat) (chunk_size overlap : Z)
    (acc : Z * list Chunk) (p : Page) :
  clean_text (p_text p) <> [] ->
  len (clean_text (p_text p)) < chunk_size ->
  let chunk id := mkChunk id (p_page p) (clean_text (p_text p)) None in
  for_body (S fuel) chunk_size overlap acc p
  = Some (fst acc + 1, snd acc ++ [chunk (fst acc)])
  /\ create_chunks (S fuel) [p] chunk_size overlap = Some [chunk 0]
  /\ (forall before after,
        for_pages (S fuel) chunk_size overlap before (0, []) = Some acc ->
        for_pages (S fuel) chunk_size overlap (before ++ p :: after) (0, [])
        = for_pages (S fuel) chunk_size overlap after
            (fst acc + 1, snd acc ++ [chunk (fst acc)]))
  /\ strip (clean_text (p_text p)) = clean_text (p_text p).
Proof.
  intros Hne Hlt chunk.
  assert (B : forall acc,
    for_body (S fuel) chunk_size overlap acc p
    = Some (fst acc + 1, snd acc ++ [chunk (fst acc)])).
  { clear acc. intros acc. unfold for_body, chunk.
    pose proof (clean_text_stripped (p_text p)) as Hs.
    destruct (clean_text (p_text p)) as [|c r] eqn:E; [congruence|].
    set (text := c :: r) in *.
    assert (Hw : window text chunk_size 0 = (text, chunk_size)).
    { unfold window. rewrite Z.add_0_l.
      destruct (Z.ltb_spec chunk_size (len text)); [lia|].
      rewrite slice_all by lia. reflexivity. }
    assert (Hb : while_body text (p_page p) chunk_size overlap
                   (mkLoop 0 (fst acc) (snd acc))
                 = mkLoop (len text) (fst acc + 1)
                     (snd acc ++ [mkChunk (fst acc) (p_page p) text None])).
    { unfold while_body. cbn [start chunk_id chunks]. rewrite Hw, Hs.
      destruct (Z.ltb_spec chunk_size (len text)); [lia|]. reflexivity. }
    cbn [while]. unfold while_cond at 1. cbn [start].
    destruct (Z.ltb_spec 0 (len text));
      [|unfold len, text in *; simpl in *; lia].
    rewrite Hb.
    assert (Hstop : forall st, start st = len text ->
              while fuel (while_cond text)
                (while_body text (p_page p) chunk_size overlap) st = Some st).
    { intros st Hst. destruct fuel; cbn [while]; unfold while_cond;
        rewrite Hst, Z.ltb_irrefl; reflexivity. }
    rewrite Hstop by reflexivity. reflexivity. }
  split; [apply B|].
  split; [unfold create_chunks, for_pages; rewrite B; reflexivity|].
  split; [|apply clean_text_stripped].
  intros before after H. rewrite for_pages_app, H.
  cbn [for_pages]. now rewrite B.
Qed.

Lemma short_page_one_chunk_witness :
  create_chunks 1 [short_page] CHUNK_SIZE CHUNK_OVERLAP
  = Some [mkChunk 0 7 (clean_text (p_text short_page)) None].
Proof.
  apply (short_page_one_chunk 0 CHUNK_SIZE CHUNK_OVERLAP (0, []) short_page).
  - vm_compute. discriminate.
  - vm_compute. reflexivity.
Defined.

(** ** Every chunk of a call *)

(** C8.  For a chunk size that is not negative, every chunk that
    [create_chunks] returns has a text that is not empty, has at most
    [chunk_size] characters, and is a contiguous piece of the cleaned text of
    an input page with the chunk's page number. *)
Theorem chunks_within_page (fuel : nat) (pages : list Page)
    (chunk_size overlap : Z) (result : list Chunk) :
  0 <= chunk_size ->
  create_chunks fuel pages chunk_size overlap = Some result ->
  Forall (fun c =>
            c_text c <> []
            /\ len (c_text c) <= chunk_size
            /\ exists p, In p pages /\ p_page p = c_page c
                         /\ substring (c_text c) (clean_text (p_text p)))
         result.
Proof.
  intros HS H. apply create_chunks_result in H. destruct H as (_ & H & _).
  eapply Forall_impl; [|exact H].
  intros c (p & Hp & Hpage & _ & Hne & Hsub & Hlen).
  split; [exact Hne|]. split; [now apply Hlen|].
  exists p. auto.
Qed.

Lemma chunks_within_page_witness :
  Forall (fun c =>
            c_text c <> []
            /\ len (c_text c) <= 20
            /\ exists p, In p [mkPage 1 sentences] /\ p_page p = c_page c
                         /\ substring (c_text c) (clean_text (p_text p)))
    [mkChunk 0 1 (of_string "Sentence one.") None;
     mkChunk 1 1 (of_string "one. Sentence two.") None;
     mkChunk 2 1 (of_string "two. Sentence three") None;
     mkChunk 3 1 (of_string "three.") None].
Proof.
  apply (chunks_within_page 4 [mkPage 1 sentences] 20 5); [lia | reflexivity].
Defined.

(** ** Page numbers *)

Lemma extract_from_sorted (i : Z) (raw : list str) :
  StronglySorted Z.le (map p_page (extract_from i raw))
  /\ Forall (fun n => i < n) (map p_page (extract_from i raw)).
Proof.
  revert i. induction raw as [|t rest IH]; intros i; simpl;
    [split; constructor|].
  destruct (IH (i + 1)) as [Hs Hf]. split.
  - constructor; [exact Hs|].
    eapply Forall_impl; [|exact Hf]. intros n; simpl; lia.
  - constructor; [lia|].
    eapply Forall_impl; [|exact Hf]. intros n; simpl; lia.
Qed.

(** The pages of either extractor come in increasing page order. *)
Lemma extract_text_sorted (raw : list str) :
  StronglySorted Z.le (map p_page (extract_text raw)).
Proof. apply extract_from_sorted. Qed.

(** C10, as stated, fails: the pages 2 and 1, given in this order, yield
    chunks whose page fields decrease. *)
Lemma chunk_pages_out_of_order :
  let pages := [mkPage 2 (of_string "b"); mkPage 1 (of_string "a")] in
  exists result,
    create_chunks 1 pages CHUNK_SIZE CHUNK_OVERLAP = Some result
    /\ map c_id result = [0; 1]
    /\ map c_page result = [2; 1]
    /\ ~ StronglySorted Z.le (map c_page result).
Proof.
  eexists. split; [reflexivity|]. split; [reflexivity|].
  split; [reflexivity|].
  intros H. inversion H as [|? ? _ Hf]; subst.
  inversion Hf as [|? ? Hle _]; subst. vm_compute in Hle. now apply Hle.
Qed.

(** C10, amended.  When the input pages come in non-decreasing page order,
    as the extractors give them, the page fields of the chunks that one call
    of [create_chunks] returns are non-decreasing in the order of emission;
    and, in whatever order the pages come, the page of every chunk is the
    page number of an input page. *)
Theorem chunk_pages_follow_input (fuel : nat) (pages : list Page)
    (chunk_size overlap : Z) (result : list Chunk) :
  create_chunks fuel pages chunk_size overlap = Some result ->
  (StronglySorted Z.le (map p_page pages) ->
   StronglySorted Z.le (map c_page result))
  /\ Forall (fun c => In (c_page c) (map p_page pages)) result.
Proof.
  intros H. apply create_chunks_result in H. destruct H as (_ & Hf & Hs).
  split; [exact Hs|].
  eapply Forall_impl; [|exact Hf].
  intros c (p & Hp & -> & _). now apply in_map.
Qed.

Lemma chunk_pages_follow_input_witness :
  StronglySorted Z.le
    (map c_page [mkChunk 0 1 (of_string "First page.") None;
                 mkChunk 1 2 (of_string "Second page.") None]).
Proof.
  apply (chunk_pages_follow_input 1 two_pages CHUNK_SIZE CHUNK_OVERLAP);
    [reflexivity | apply extract_text_sorted].
Defined.

(** ** [save_chunks] *)

Lemma firstn_plus {A : Type} (x y : nat) (l : list A) :
  firstn (x + y) l = firstn x l ++ firstn y (skipn x l).
Proof.
  revert l. induction x as [|x IH]; intros l; [reflexivity|].
  destruct l as [|a l]; simpl; [now rewrite firstn_nil | now rewrite IH].
Qed.

Section Batches.

Variables (A : Type) (l : list A) (B : Z).
Hypothesis B_pos : 0 < B.

Lemma batch_firstn (i : Z) :
  0 <= i ->
  batch A l B i = firstn (Z.to_nat B) (skipn (Z.to_nat (i * B)) l).
Proof.
  intros Hi. unfold batch, slice, clamp_index, len.
  replace ((i + 1) * B) with (i * B + B) by ring.
  assert (0 <= i * B) by (apply Z.mul_nonneg_nonneg; lia).
  set (k := i * B) in *. set (L := length l).
  destruct (Z.ltb_spec k 0); [lia|].
  destruct (Z.ltb_spec (Z.min (k + B) (Z.of_nat L)) 0); [lia|].
  destruct (Z.le_gt_cases (Z.of_nat L) k) as [Hge | Hlt].
  - rewrite !(skipn_all2 l) by (fold L; lia). now rewrite !firstn_nil.
  - replace (Z.min k (Z.of_nat L)) with k by lia.
    destruct (Z.le_gt_cases (k + B) (Z.of_nat L)).
    + f_equal. lia.
    + rewrite !firstn_all2; [reflexivity | |];
        rewrite length_skipn; fold L; lia.
Qed.

Lemma batch_length (i : Z) :
  0 <= i -> i * B <= len l -> len (batch A l B i) = Z.min B (len l - i * B).
Proof.
  intros Hi Hle. rewrite batch_firstn by exact Hi.
  assert (0 <= i * B) by (apply Z.mul_nonneg_nonneg; lia).
  unfold len in *. rewrite length_firstn, length_skipn. lia.
Qed.

Lemma batches_concat (a : Z) (n : nat) :
  0 <= a ->
  concat (map (batch A l B) (iota a n))
  = firstn (n * Z.to_nat B) (skipn (Z.to_nat (a * B)) l).
Proof.
  revert a. induction n as [|n IH]; intros a Ha; [reflexivity|].
  cbn [iota map concat]. rewrite IH, batch_firstn by lia.
  assert (0 <= a * B) by (apply Z.mul_nonneg_nonneg; lia).
  replace (Z.to_nat ((a + 1) * B)) with (Z.to_nat B + Z.to_nat (a * B))%nat
    by (replace ((a + 1) * B) with (a * B + B) by ring; lia).
  rewrite <- skipn_skipn.
  change (S n * Z.to_nat B)%nat with (Z.to_nat B + n * Z.to_nat B)%nat.
  now rewrite firstn_plus.
Qed.

Lemma num_batches_bounds :
  0 <= num_batches A l B
  /\ (num_batches A l B - 1) * B < len l <= num_batches A l B * B.
Proof.
  unfold num_batches.
  assert (0 <= len l) by (unfold len; lia).
  pose proof (Z.div_mod (len l + B - 1) B ltac:(lia)) as Hd.
  pose proof (Z.mod_pos_bound (len l + B - 1) B B_pos) as Hm.
  split; [apply Z.div_pos; lia | nia].
Qed.

End Batches.

Lemma iota_nth_error (a : Z) (n i : nat) (x : Z) :
  nth_error (iota a n) i = Some x -> x = a + Z.of_nat i /\ (i < n)%nat.
Proof.
  revert a i. induction n as [|n IH]; intros a i; simpl.
  - destruct i; discriminate.
  - destruct i as [|i]; simpl.
    + intros [= <-]. lia.
    + intros H. apply IH in H. lia.
Qed.

Lemma write_files_some (batches files : list (Z * list Chunk)) :
  write_files batches = Some files ->
  files = batches /\ forallb (fun f => dump_ok (snd f)) batches = true.
Proof.
  revert files. induction batches as [|f rest IH]; intros files; simpl.
  - now intros [= <-].
  - destruct (dump_ok (snd f)); [|discriminate].
    destruct (write_files rest) as [written|]; [|discriminate].
    intros [= <-]. destruct (IH written eq_refl) as [-> ->]. now split.
Qed.


Lemma save_chunks_files (chunks : list Chunk) (chunks_per_file : Z)
    (files : list (Z * list Chunk)) (num_files : Z) :
  0 < chunks_per_file ->
  save_chunks chunks chunks_per_file = Some (files, num_files) ->
  files = map (fun i => (i, batch Chunk chunks chunks_per_file i))
            (range (num_batches Chunk chunks chunks_per_file))
  /\ num_files = num_batches Chunk chunks chunks_per_file.
Proof.
  intros HB. unfold save_chunks.
  destruct (Z.eqb_spec chunks_per_file 0); [lia|].
  destruct (write_files _) as [written|] eqn:W; [|discriminate].
  intros [= <- <-]. apply write_files_some in W. destruct W as [-> _].
  split; reflexivity.
Qed.

(** C5, as stated, fails: a chunk whose text has a surrogate, as
    [create_chunks] emits it for a page with that text, makes the dump of
    its batch raise, and [save_chunks] returns nothing. *)
Lemma save_chunks_raises_on_surrogate :
  create_chunks 1 [mkPage 1 [97; 55296]] CHUNK_SIZE CHUNK_OVERLAP
  = Some [mkChunk 0 1 [97; 55296] None]
  /\ 0 < CHUNKS_PER_FILE
  /\ ~ (exists files num_files,
          save_chunks [mkChunk 0 1 [97; 55296] None] CHUNKS_PER_FILE
          = Some (files, num_files)).
Proof.
  split; [vm_compute; reflexivity|]. split; [reflexivity|].
  intros (files & num_files & H). vm_compute in H. discriminate.
Qed.

(** C5, amended.  For a positive batch size, when [save_chunks] returns, it
    has written the files numbered 0, 1, ... and returns their number; no
    file has more than [chunks_per_file] chunks and every file but the last
    has exactly that many; the files, concatenated in the order of their
    numbers, are the given chunks; and 250 chunks in batches of 100 make
    three files of 100, 100 and 50 chunks, with 3 returned. *)
Theorem save_chunks_batches (chunks : list Chunk) (chunks_per_file : Z)
    (files : list (Z * list Chunk)) (num_files : Z) :
  0 < chunks_per_file ->
  save_chunks chunks chunks_per_file = Some (files, num_files) ->
  num_files = len files
  /\ map fst files = range (len files)
  /\ concat (map snd files) = chunks
  /\ Forall (fun f => len (snd f) <= chunks_per_file) files
  /\ (forall i f, nth_error files i = Some f -> (S i < length files)%nat ->
      len (snd f) = chunks_per_file)
  /\ (len chunks = 250 -> chunks_per_file = 100 ->
      map (fun f => len (snd f)) files = [100; 100; 50]
      /\ len files = 3 /\ num_files = 3).
Proof.
  intros HB H. destruct (save_chunks_files _ _ _ _ HB H) as [-> ->]. clear H.
  pose proof (num_batches_bounds Chunk chunks chunks_per_file HB)
    as (Hn0 & Hlo & Hhi).
  set (n := num_batches Chunk chunks chunks_per_file) in *.
  set (bt := batch Chunk chunks chunks_per_file).
  assert (Hlen : len (map (fun i => (i, bt i)) (range n)) = n).
  { unfold len, range. rewrite length_map, iota_length. lia. }
  assert (Hsnd : map snd (map (fun i => (i, bt i)) (range n))
                 = map bt (range n)).
  { rewrite map_map. reflexivity. }
  rewrite Hlen. split; [reflexivity|].
  split; [rewrite map_map; apply map_id|].
  split.
  { rewrite Hsnd. unfold range, bt. rewrite batches_concat by lia.
    simpl. apply firstn_all2. unfold len in *. nia. }
  split.
  { apply Forall_forall. intros f Hf. apply in_map_iff in Hf.
    destruct Hf as (i & <- & Hi). apply iota_In in Hi. simpl.
    unfold bt. rewrite batch_firstn by lia. unfold len.
    rewrite length_firstn. lia. }
  split.
  { intros i f Hf Hi. rewrite length_map in Hi. unfold range in Hi, Hf.
    rewrite iota_length in Hi. rewrite nth_error_map in Hf.
    destruct (nth_error (iota 0 (Z.to_nat n)) i) as [x|] eqn:E; [|discriminate].
    injection Hf as <-. apply iota_nth_error in E. destruct E as [-> _].
    simpl. unfold bt. rewrite batch_length by nia. nia. }
  intros HL ->. unfold n, num_batches in *. rewrite HL in *.
  change ((250 + 100 - 1) / 100) with 3 in *.
  split; [|split; reflexivity].
  change (range 3) with [0; 1; 2]. cbn [map snd]. unfold bt.
  rewrite !batch_length, HL by (rewrite ?HL; lia). reflexivity.
Qed.

Lemma save_chunks_batches_witness :
  let files := [(0, slice chunks_250 0 100); (1, slice chunks_250 100 200);
                (2, slice chunks_250 200 250)] in
  concat (map snd files) = chunks_250
  /\ map (fun f => len (snd f)) files = [100; 100; 50]
  /\ len files = 3.
Proof.
  intros files.
  destruct (save_chunks_batches chunks_250 CHUNKS_PER_FILE files 3)
    as (_ & _ & H3 & _ & _ & H6);
    [reflexivity | vm_compute; reflexivity |].
  destruct H6 as (Hs & Hl & _); [vm_compute; reflexivity | reflexivity|].
  auto.
Defined.

(** ** The accumulation loop of [main] *)

Lemma iota_shift (k a : Z) (n : nat) :
  map (Z.add k) (iota a n) = iota (k + a) n.
Proof.
  revert a. induction n as [|n IH]; intros a; simpl; [reflexivity|].
  rewrite IH. do 2 f_equal. lia.
Qed.

Lemma retag_ids (offset : Z) (name : string) (cs : list Chunk) :
  map c_id (map (retag offset name) cs) = map (Z.add offset) (map c_id cs).
Proof. rewrite !map_map. reflexivity. Qed.

Lemma retag_sources (offset : Z) (name : string) (cs : list Chunk) :
  map c_source (map (retag offset name) cs) = repeat (Some name) (length cs).
Proof. induction cs as [|c cs IH]; simpl; [|rewrite IH]; reflexivity. Qed.

Lemma main_body_ids (fuel : nat) (acc acc' : list Chunk * list Page)
    (pdf : Pdf) :
  main_body fuel acc pdf = Some acc' ->
  map c_id (fst acc) = iota 0 (length (fst acc)) ->
  map c_id (fst acc') = iota 0 (length (fst acc')).
Proof.
  unfold main_body.
  destruct (create_chunks _ _ _ _) as [cs|] eqn:E; [|discriminate].
  intros [= <-] H. apply create_chunks_result in E. destruct E as (Hm & _).
  simpl. rewrite map_app, length_app, iota_app, retag_ids, Hm, iota_shift.
  rewrite length_map, H, Z.add_0_r. reflexivity.
Qed.

Lemma main_loop_ids (fuel : nat) (pdf_files : list Pdf)
    (acc acc' : list Chunk * list Page) :
  main_loop fuel pdf_files acc = Some acc' ->
  map c_id (fst acc) = iota 0 (length (fst acc)) ->
  map c_id (fst acc') = iota 0 (length (fst acc')).
Proof.
  revert acc. induction pdf_files as [|pdf rest IH]; intros acc; simpl.
  - now intros [= <-].
  - destruct (main_body fuel acc pdf) as [acc1|] eqn:B; [|discriminate].
    intros H Hacc. apply (IH _ H). eapply main_body_ids; eassumption.
Qed.

Lemma main_loop_terminates (fuel : nat) (pdf_files : list Pdf)
    (acc : list Chunk * list Page) :
  (main_fuel pdf_files <= fuel)%nat ->
  exists acc', main_loop fuel pdf_files acc = Some acc'.
Proof.
  revert acc. induction pdf_files as [|pdf rest IH]; intros acc Hf;
    simpl in *; [eexists; reflexivity|].
  unfold main_body.
  destruct (create_chunks_terminates fuel (extract_text (pdf_raw pdf))
              CHUNK_SIZE CHUNK_OVERLAP) as [cs ->];
    [reflexivity | discriminate | lia |].
  apply IH. lia.
Qed.

(** C4.  Every run of the loop of [main] ends, and the chunks it has
    accumulated carry the ids 0, 1, 2, ... in the order of emission, which
    are distinct and strictly increasing.  When the first of two PDFs yields
    three chunks and the second two, the chunks of the second get the ids 3
    and 4, and every chunk has the name of its own file as source. *)
Theorem main_chunk_ids (pdf_files : list Pdf) :
  (exists fuel all_chunks, main_chunks fuel pdf_files = Some all_chunks)
  /\ (forall fuel all_chunks,
        main_chunks fuel pdf_files = Some all_chunks ->
        map c_id all_chunks = iota 0 (length all_chunks)
        /\ NoDup (map c_id all_chunks)
        /\ StronglySorted Z.lt (map c_id all_chunks))
  /\ (forall fuel pdf1 pdf2 chunks1 chunks2,
        pdf_files = [pdf1; pdf2] ->
        create_chunks fuel (extract_text (pdf_raw pdf1))
          CHUNK_SIZE CHUNK_OVERLAP = Some chunks1 ->
        create_chunks fuel (extract_text (pdf_raw pdf2))
          CHUNK_SIZE CHUNK_OVERLAP = Some chunks2 ->
        length chunks1 = 3%nat -> length chunks2 = 2%nat ->
        exists all1 all2,
          main_chunks fuel pdf_files = Some (all1 ++ all2)
          /\ map c_id all1 = [0; 1; 2] /\ map c_id all2 = [3; 4]
          /\ map c_source all1 = repeat (Some (pdf_name pdf1)) 3
          /\ map c_source all2 = repeat (Some (pdf_name pdf2)) 2
          /\ map c_text all1 = map c_text chunks1
          /\ map c_text all2 = map c_text chunks2).
Proof.
  split; [|split].
  - destruct (main_loop_terminates (main_fuel pdf_files) pdf_files ([], []))
      as [acc H]; [lia|].
    exists (main_fuel pdf_files), (fst acc). unfold main_chunks. now rewrite H.
  - intros fuel all_chunks. unfold main_chunks.
    destruct (main_loop fuel pdf_files ([], [])) as [acc|] eqn:E;
      [|discriminate].
    intros [= <-]. apply main_loop_ids in E; [|reflexivity].
    rewrite E. split; [reflexivity|].
    split; [apply iota_NoDup | apply iota_sorted].
  - intros fuel pdf1 pdf2 chunks1 chunks2 -> H1 H2 L1 L2.
    exists (map (retag 0 (pdf_name pdf1)) chunks1),
           (map (retag 3 (pdf_name pdf2)) chunks2).
    pose proof (create_chunks_result _ _ _ _ _ H1) as (I1 & _).
    pose proof (create_chunks_result _ _ _ _ _ H2) as (I2 & _).
    rewrite !retag_ids, !retag_sources, I1, I2, !iota_shift, L1, L2.
    split.
    + unfold main_chunks, main_loop, main_body. cbn [fst snd].
      rewrite H1. cbn [fst snd]. rewrite H2. cbn [fst snd app].
      unfold len. rewrite length_map, L1. reflexivity.
    + repeat split; rewrite !map_map; reflexivity.
Qed.

Lemma main_chunk_ids_witness :
  exists all1 all2,
    main_chunks 1 [pdf_a; pdf_b] = Some (all1 ++ all2)
    /\ map c_id all1 = [0; 1; 2] /\ map c_id all2 = [3; 4]
    /\ map c_source all1 = repeat (Some "a.pdf"%string) 3
    /\ map c_source all2 = repeat (Some "b.pdf"%string) 2.
Proof.
  destruct (proj2 (proj2 (main_chunk_ids [pdf_a; pdf_b])) 1%nat pdf_a pdf_b
              [mkChunk 0 1 (of_string "One.") None;
               mkChunk 1 2 (of_string "Two.") None;
               mkChunk 2 3 (of_string "Three.") None]
              [mkChunk 0 1 (of_string "Four.") None;
               mkChunk 1 2 (of_string "Five.") None]
              eq_refl eq_refl eq_refl eq_refl eq_refl)
    as (all1 & all2 & H & I1 & I2 & S1 & S2 & _).
  exists all1, all2. auto.
Defined.

(** * Further properties *)

(** ** More on [clean_text] *)

Lemma drop_while_prefix_all {A : Type} (p : A -> bool) (s : list A) :
  exists pre, s = pre ++ drop_while p s /\ Forall (fun c => p c = true) pre.
Proof.
  induction s as [|c r (pre & IH & Hp)]; simpl; [now exists []|].
  destruct (p c) eqn:E; [|now exists []].
  exists (c :: pre). split; [simpl; now f_equal | now constructor].
Qed.

Lemma rstrip_suffix_all (s : str) :
  exists post, s = rstrip s ++ post /\ Forall (fun c => is_space c = true) post.
Proof.
  induction s as [|c r (post & IH & Hp)]; simpl; [now exists []|].
  destruct (rstrip r) as [|d r'] eqn:E.
  - destruct (is_space c) eqn:Ec.
    + exists (c :: r). split; [reflexivity|]. simpl in IH. subst r.
      now constructor.
    + exists post. split; [simpl in *; now f_equal | exact Hp].
  - exists post. split; [simpl in *; now f_equal | exact Hp].
Qed.

Lemma rstrip_last (s r : str) (c : Z) :
  rstrip s = r ++ [c] -> is_space c = false.
Proof.
  revert r. induction s as [|x s IH]; intros r; simpl.
  - now destruct r.
  - destruct (rstrip s) as [|d s'] eqn:E.
    + destruct (is_space x) eqn:Ex; [now destruct r|].
      destruct r as [|y r]; [now intros [= <-]|].
      intros [= _ H]. now destruct r.
    + destruct r as [|y r]; [discriminate|].
      intros [= _ H]. now apply (IH r).
Qed.

Lemma strip_head (s r : str) (c : Z) :
  strip s = c :: r -> is_space c = false.
Proof.
  unfold strip, lstrip.
  destruct (drop_while is_space s) as [|d u] eqn:E; [discriminate|].
  pose proof (drop_while_head _ _ _ _ E) as Hd.
  rewrite (rstrip_cons_keep _ _ Hd). now intros [= <- _].
Qed.

Lemma filter_all_false {A : Type} (p q : A -> bool) (s : list A) :
  Forall (fun c => q c = true) s -> (forall c, q c = true -> p c = false) ->
  filter p s = [].
Proof.
  intros H Hpq. induction H as [|c r Hc _ IH]; simpl; [reflexivity|].
  now rewrite (Hpq c Hc).
Qed.

Lemma visible_not_space (c : Z) : is_space c = true -> visible c = false.
Proof. intros H. unfold visible. rewrite H. apply andb_false_r. Qed.

Lemma visible_sub_ctrl (s : str) :
  filter visible (sub_ctrl s) = filter visible s.
Proof.
  unfold sub_ctrl. induction s as [|c r IH]; simpl; [reflexivity|].
  unfold visible at 2. destruct (is_ctrl c) eqn:E; simpl; [exact IH|].
  unfold visible at 1. rewrite E. simpl. now rewrite IH.
Qed.

Lemma visible_drop_while (s : str) :
  filter visible (drop_while is_space s) = filter visible s.
Proof.
  destruct (drop_while_prefix_all is_space s) as (pre & H & Hp).
  rewrite H at 2. rewrite filter_app.
  now rewrite (filter_all_false visible is_space pre Hp visible_not_space).
Qed.

Lemma visible_sub_ws (s : str) : filter visible (sub_ws s) = filter visible s.
Proof.
  funelim (sub_ws s); simpl; [reflexivity | |].
  - rewrite (visible_not_space c) by assumption.
    match goal with IH : filter visible (sub_ws _) = _ |- _ => rewrite IH end.
    apply visible_drop_while.
  - match goal with IH : filter visible (sub_ws _) = _ |- _ =>
      now rewrite IH end.
Qed.

Lemma visible_strip (s : str) : filter visible (strip s) = filter visible s.
Proof.
  unfold strip, lstrip. rewrite <- (visible_drop_while s).
  destruct (rstrip_suffix_all (drop_while is_space s)) as (post & H & Hp).
  rewrite H at 2. rewrite filter_app.
  rewrite (filter_all_false visible is_space post Hp visible_not_space).
  now rewrite app_nil_r.
Qed.

(** X1.  The cleaned text is trimmed and normalised: it has no character of
    the deleted class, its only white space is the space, no two spaces
    are adjacent, and it neither starts nor ends with a space. *)
Theorem clean_text_normal_form (text : str) :
  Forall (fun c => is_ctrl c = false) (clean_text text)
  /\ Forall (fun c => is_space c = true -> c = SP) (clean_text text)
  /\ single_spaced (clean_text text)
  /\ (forall c r, clean_text text = c :: r -> is_space c = false)
  /\ (forall r c, clean_text text = r ++ [c] -> is_space c = false).
Proof.
  destruct (clean_text_clean_form text) as [Hp Hs].
  split; [eapply Forall_impl; [|exact Hp]; now intros c [H _]|].
  split; [eapply Forall_impl; [|exact Hp]; now intros c [_ H]|].
  split; [exact Hs|]. split.
  - intros c r. unfold clean_text. apply strip_head.
  - intros r c. unfold clean_text, strip. apply rstrip_last.
Qed.

(** X2.  Cleaning keeps the characters that are neither deleted nor white
    space, all of them and in their order. *)
Theorem clean_text_keeps_visible (text : str) :
  filter visible (clean_text text) = filter visible text.
Proof.
  rewrite clean_text_strip_subs, visible_strip, visible_sub_ws.
  apply visible_sub_ctrl.
Qed.

Lemma sub_ws_length (s : str) : (length (sub_ws s) <= length s)%nat.
Proof.
  funelim (sub_ws s); simpl; [lia | |].
  - destruct (drop_while_suffix is_space r) as [pre Hpre].
    apply (f_equal (@length Z)) in Hpre. rewrite length_app in Hpre. lia.
  - lia.
Qed.

(** X3.  The cleaned text is empty exactly when every character of the input
    is deleted or white space, and it is never longer than the input. *)
Theorem clean_text_empty_iff (text : str) :
  (clean_text text = [] <->
   Forall (fun c => is_ctrl c || is_space c = true) text)
  /\ (length (clean_text text) <= length text)%nat.
Proof.
  split.
  - assert (V : filter visible (clean_text text) = filter visible text).
    { rewrite clean_text_strip_subs, visible_strip, visible_sub_ws.
      apply visible_sub_ctrl. }
    split.
    + intros H. rewrite H in V. simpl in V. apply Forall_forall.
      intros c Hc. destruct (visible c) eqn:E.
      * assert (Hin : In c (filter visible text)) by now apply filter_In.
        rewrite <- V in Hin. destruct Hin.
      * unfold visible in E. destruct (is_ctrl c), (is_space c);
          simpl in *; congruence.
    + intros H. destruct (clean_text text) as [|c r] eqn:E; [reflexivity|].
      exfalso.
      assert (Hv : visible c = true).
      { destruct (clean_text_clean_form text) as [Hp _].
        rewrite E in Hp. inversion Hp as [|? ? [Hc _] _]; subst.
        unfold visible. rewrite Hc. simpl.
        rewrite (strip_head (sub_blank_lines (sub_ws (sub_ctrl text))) r c);
          [reflexivity | exact E]. }
      assert (Hin : In c (filter visible text)).
      { rewrite <- V. simpl. rewrite Hv. now left. }
      apply filter_In in Hin. destruct Hin as [Hin Hv'].
      apply (proj1 (Forall_forall _ _) H) in Hin.
      unfold visible in Hv'. destruct (is_ctrl c), (is_space c);
        simpl in *; congruence.
  - rewrite clean_text_strip_subs.
    pose proof (substring_length _ _
                  (strip_substring (sub_ws (sub_ctrl text)))).
    pose proof (sub_ws_length (sub_ctrl text)).
    pose proof (filter_length_le (fun c => negb (is_ctrl c)) text).
    unfold sub_ctrl in *. lia.
Qed.

(** ** Windows *)

Lemma slice_firstn_skipn {A : Type} (s : list A) (lo hi : Z) :
  0 <= lo <= hi ->
  slice s lo hi = firstn (Z.to_nat (hi - lo)) (skipn (Z.to_nat lo) s).
Proof.
  intros H. unfold slice, clamp_index, len. set (L := length s).
  destruct (Z.ltb_spec lo 0); [lia|]. destruct (Z.ltb_spec hi 0); [lia|].
  destruct (Z.le_gt_cases (Z.of_nat L) lo) as [Hge | Hlt].
  - rewrite !(skipn_all2 s) by (fold L; lia). now rewrite !firstn_nil.
  - replace (Z.min lo (Z.of_nat L)) with lo by lia.
    destruct (Z.le_gt_cases hi (Z.of_nat L)).
    + f_equal. lia.
    + rewrite !firstn_all2; [reflexivity | |];
        rewrite length_skipn; fold L; lia.
Qed.

Lemma rfind_found (c : Z) (s : str) :
  0 <= rfind c s -> nth_error s (Z.to_nat (rfind c s)) = Some c.
Proof.
  induction s as [|x r IH]; simpl; [lia|].
  destruct (Z.leb_spec 0 (rfind c r)) as [Hk | Hk].
  - intros _. replace (Z.to_nat (rfind c r + 1)) with (S (Z.to_nat (rfind c r)))
      by lia.
    simpl. now apply IH.
  - destruct (Z.eqb_spec x c) as [-> | _]; [reflexivity | lia].
Qed.

(** The window at a [start] that is not negative: the text from [start] up
    to the end of the window. *)
Lemma window_shape (text : str) (chunk_size start : Z) :
  0 <= start -> 0 < chunk_size ->
  let e := snd (window text chunk_size start) in
  start < e <= start + chunk_size
  /\ fst (window text chunk_size start)
     = firstn (Z.to_nat (e - start)) (skipn (Z.to_nat start) text).
Proof.
  intros Hs HS e. subst e. unfold window.
  rewrite (slice_firstn_skipn text start (start + chunk_size)) by lia.
  replace (start + chunk_size - start) with chunk_size by lia.
  set (Y := skipn (Z.to_nat start) text).
  set (X := firstn (Z.to_nat chunk_size) Y).
  destruct (start + chunk_size <? len text); cbn [fst snd].
  2:{ split; [lia | unfold X; f_equal; lia]. }
  set (bp := Z.max (rfind DOT X) (rfind NL X)).
  destruct (Z.ltb_spec chunk_size (2 * bp)); cbn [fst snd];
    [|split; [lia | unfold X; f_equal; lia]].
  assert (Hbp : bp < len X).
  { pose proof (rfind_range DOT X). pose proof (rfind_range NL X). lia. }
  assert (HX : len X <= chunk_size).
  { unfold len, X. pose proof (firstn_le_length (Z.to_nat chunk_size) Y). lia. }
  split; [lia|].
  rewrite slice_firstn_skipn by lia. simpl skipn. unfold X.
  rewrite firstn_firstn. f_equal. lia.
Qed.

(** Lines 107-114 on a text without newline: a window that is cut ends with
    a period. *)
Lemma window_cut_shape (text : str) (chunk_size start : Z) :
  0 <= chunk_size ->
  snd (window text chunk_size start) <> start + chunk_size ->
  let ct := fst (window text chunk_size start) in
  let bp := Z.max (rfind DOT (slice text start (start + chunk_size)))
              (rfind NL (slice text start (start + chunk_size))) in
  chunk_size < 2 * bp
  /\ len ct = bp + 1
  /\ snd (window text chunk_size start) = start + bp + 1
  /\ start + bp + 1 <= len text
  /\ exists pre c, ct = pre ++ [c] /\ (c = DOT \/ c = NL).
Proof.
  intros HS Hcut ct bp0. subst ct bp0. revert Hcut.
  unfold window. set (X := slice text start (start + chunk_size)).
  destruct (Z.ltb_spec (start + chunk_size) (len text)) as [Hlt|];
    cbn [fst snd]; [|congruence].
  set (bp := Z.max (rfind DOT X) (rfind NL X)).
  destruct (Z.ltb_spec chunk_size (2 * bp)); cbn [fst snd]; [|congruence].
  intros _.
  assert (Hbp : 0 <= bp < len X).
  { pose proof (rfind_range DOT X). pose proof (rfind_range NL X). lia. }
  assert (Hc : exists c,
            nth_error X (Z.to_nat bp) = Some c /\ (c = DOT \/ c = NL)).
  { unfold bp in *.
    destruct (Z.max_spec (rfind DOT X) (rfind NL X)) as [[_ E]|[_ E]];
      rewrite E in *; eexists; (split; [apply rfind_found; lia | auto]). }
  destruct Hc as (c & Hn & Hc).
  rewrite slice_firstn_skipn by lia. simpl skipn.
  replace (Z.to_nat (bp + 1 - 0)) with (S (Z.to_nat bp)) by lia.
  assert (HlenX : len X <= chunk_size /\ len X <= len text - start
                  \/ start < 0).
  { destruct (Z.ltb_spec start 0); [now right | left].
    unfold X. rewrite slice_firstn_skipn by lia. unfold len in *.
    rewrite length_firstn, length_skipn. lia. }
  split; [lia|]. split.
  { unfold len in *. rewrite length_firstn. lia. }
  split; [reflexivity|]. split.
  { destruct HlenX as [[H1 H2] | Hneg]; [lia|].
    pose proof (slice_length text start (start + chunk_size)) as Hl.
    fold X in Hl. lia. }
  exists (firstn (Z.to_nat bp) X), c. split; [|exact Hc].
  rewrite <- (firstn_skipn_middle _ _ Hn) at 1.
  rewrite firstn_app, firstn_firstn, length_firstn.
  replace (Nat.min (S (Z.to_nat bp)) (Z.to_nat bp)) with (Z.to_nat bp) by lia.
  f_equal.
  replace (S (Z.to_nat bp) - Nat.min (Z.to_nat bp) (length X))%nat with 1%nat
    by (unfold len in *; lia).
  reflexivity.
Qed.

Lemma drop_while_snoc {A : Type} (p : A -> bool) (s : list A) (c : A) :
  p c = false -> drop_while p (s ++ [c]) = drop_while p s ++ [c].
Proof.
  intros H. induction s as [|x s IH]; simpl; [now rewrite H|].
  now destruct (p x).
Qed.

Lemma rstrip_snoc_keep (s : str) (c : Z) :
  is_space c = false -> rstrip (s ++ [c]) = s ++ [c].
Proof.
  intros H. induction s as [|x s IH]; simpl; [now rewrite H|].
  rewrite IH. now destruct (s ++ [c]) eqn:E; [destruct s|].
Qed.

(** X4.  An iteration whose window is cut (its end is not [start +
    chunk_size]) emits a chunk that ends with a period; the cut window has
    more than half of [chunk_size] characters, and at most [chunk_size]. *)
Theorem cut_window_chunk (raw : str) (page_num chunk_size overlap : Z)
    (st : LoopState) :
  let text := clean_text raw in
  let w := window text chunk_size (start st) in
  0 <= chunk_size ->
  snd w <> start st + chunk_size ->
  (exists body,
     chunks (while_body text page_num chunk_size overlap st)
     = chunks st ++ [mkChunk (chunk_id st) page_num (body ++ [DOT]) None])
  /\ chunk_size < 2 * len (fst w) <= 2 * chunk_size
  /\ snd w = start st + len (fst w).
Proof.
  intros text w HS Hcut. subst w.
  destruct (window_cut_shape text chunk_size (start st) HS Hcut)
    as (Hbp & Hlen & He & Hle & pre & c & Hct & Hc).
  assert (HNL : ~ In NL text).
  { apply plain_no_newline, clean_text_clean_form. }
  assert (Hdot : c = DOT).
  { destruct Hc as [Hc | Hc]; [exact Hc|]. exfalso. apply HNL. subst c.
    eapply substring_In; [apply (window_substring text chunk_size (start st))|].
    rewrite Hct. apply in_or_app. right. now left. }
  subst c. split; [|split].
  - exists (lstrip pre). unfold while_body.
    destruct (window text chunk_size (start st)) as [ct e]. cbn [fst] in Hct.
    subst ct. unfold strip, lstrip.
    rewrite drop_while_snoc by reflexivity.
    rewrite rstrip_snoc_keep by reflexivity.
    destruct (drop_while is_space pre ++ [DOT]) eqn:E;
      [now destruct (drop_while is_space pre) | reflexivity].
  - pose proof (window_length text chunk_size (start st) HS). lia.
  - lia.
Qed.

Lemma cut_window_chunk_witness :
  exists body,
    chunks (while_body (clean_text sentences) 1 20 5 (mkLoop 0 0 []))
    = [] ++ [mkChunk 0 1 (body ++ [DOT]) None].
Proof.
  apply (cut_window_chunk sentences 1 20 5 (mkLoop 0 0 []));
    [lia | vm_compute; discriminate].
Defined.

(** ** Coverage *)

Lemma strip_covers (ct : str) (j : nat) (x : Z) :
  nth_error ct j = Some x -> is_space x = false ->
  exists L R,
    ct = L ++ strip ct ++ R
    /\ (length L <= j < length L + length (strip ct))%nat.
Proof.
  intros Hn Hx. unfold strip, lstrip.
  destruct (drop_while_prefix_all is_space ct) as (L & HL & HLs).
  destruct (rstrip_suffix_all (drop_while is_space ct)) as (R & HR & HRs).
  exists L, R. split; [now rewrite <- HR|].
  set (u := rstrip (drop_while is_space ct)) in *.
  assert (Hct : ct = L ++ u ++ R) by now rewrite <- HR.
  assert (Hlen : (j < length ct)%nat) by (apply nth_error_Some; congruence).
  rewrite Hct in Hn, Hlen. rewrite !length_app in Hlen.
  destruct (Nat.lt_ge_cases j (length L)) as [Hj | Hj].
  - rewrite nth_error_app1 in Hn by exact Hj. apply nth_error_In in Hn.
    apply (proj1 (Forall_forall _ _) HLs) in Hn. congruence.
  - split; [exact Hj|].
    destruct (Nat.lt_ge_cases j (length L + length u)) as [Hk | Hk];
      [exact Hk|].
    rewrite nth_error_app2 in Hn by exact Hj.
    rewrite nth_error_app2 in Hn by lia. apply nth_error_In in Hn.
    apply (proj1 (Forall_forall _ _) HRs) in Hn. congruence.
Qed.

Section Coverage.

Variables (text : str) (page_num chunk_size overlap : Z).
Hypothesis size_pos : 0 < chunk_size.

(** A position of the window that holds no white space lies in the chunk
    that the iteration emits. *)
Lemma emitted_covers (st : LoopState) (i : nat) (x : Z) :
  0 <= start st ->
  start st <= Z.of_nat i < snd (window text chunk_size (start st)) ->
  nth_error text i = Some x -> is_space x = false ->
  exists c,
    emitted text page_num chunk_size st = [c]
    /\ c_id c = chunk_id st /\ c_page c = page_num /\ covers text c i.
Proof.
  intros Hs Hi Hn Hx.
  destruct (window_shape text chunk_size (start st) Hs size_pos) as [He Hct].
  set (e := snd (window text chunk_size (start st))) in *.
  set (s := Z.to_nat (start st)). set (k := Z.to_nat (e - start st)) in *.
  fold s in Hct.
  assert (Hj : nth_error (fst (window text chunk_size (start st))) (i - s)
               = Some x).
  { rewrite Hct, nth_error_firstn.
    destruct (Nat.ltb_spec (i - s) k); [|lia].
    rewrite nth_error_skipn. replace (s + (i - s))%nat with i by lia.
    exact Hn. }
  destruct (strip_covers _ _ _ Hj Hx) as (L & R & HLR & Hpos).
  unfold emitted.
  destruct (strip (fst (window text chunk_size (start st)))) as [|d r] eqn:E;
    [simpl in Hpos; lia|].
  eexists. split; [reflexivity|]. split; [reflexivity|].
  split; [reflexivity|].
  exists (firstn s text ++ L), (R ++ skipn k (skipn s text)). cbn [c_text].
  assert (Hlen : (i < length text)%nat) by (apply nth_error_Some; congruence).
  split.
  - rewrite <- (firstn_skipn s text) at 1. rewrite <- app_assoc. f_equal.
    rewrite <- (firstn_skipn k (skipn s text)) at 1. rewrite <- Hct, HLR.
    now rewrite <- !app_assoc.
  - rewrite length_app, length_firstn. lia.
Qed.

Hypothesis overlap_nonneg : 0 <= overlap.
Hypothesis overlap_half : 2 * overlap <= chunk_size.

(** The chunks of a page hold every position of the text from [start] on
    that has no white space. *)
Lemma while_covers (fuel : nat) (st st' : LoopState) :
  while fuel (while_cond text)
    (while_body text page_num chunk_size overlap) st = Some st' ->
  0 <= start st ->
  exists new,
    chunks st' = chunks st ++ new
    /\ forall i x,
         start st <= Z.of_nat i -> nth_error text i = Some x ->
         is_space x = false ->
         exists c, In c new /\ c_page c = page_num /\ covers text c i.
Proof.
  revert st. induction fuel as [|f IH]; intros st; cbn [while];
    unfold while_cond at 1;
    destruct (Z.ltb_spec (start st) (len text)) as [Hlt | Hge];
    try discriminate.
  - intros [= <-] Hs. exists []. rewrite app_nil_r. split; [reflexivity|].
    intros i x Hi Hn. exfalso.
    assert ((i < length text)%nat) by (apply nth_error_Some; congruence).
    unfold len in *. lia.
  - intros W Hs.
    pose proof (window_progress text chunk_size overlap (start st)
                  size_pos overlap_half) as Hp.
    assert (Hs1 : 0 <= start (while_body text page_num chunk_size overlap st)).
    { rewrite while_body_start. cbv zeta.
      destruct (_ <? _); unfold len; lia. }
    destruct (IH _ W Hs1) as (new & Hc & Hcov).
    rewrite while_body_chunks in Hc.
    exists (emitted text page_num chunk_size st ++ new).
    split; [now rewrite app_assoc|].
    intros i x Hi Hn Hx.
    destruct (Z.lt_ge_cases (Z.of_nat i)
                (snd (window text chunk_size (start st)))) as [Hin | Hout].
    + destruct (emitted_covers st i x Hs (conj Hi Hin) Hn Hx)
        as (c & Hc' & _ & Hpg & Hcv).
      exists c. split; [|auto]. apply in_or_app. left. rewrite Hc'. now left.
    + assert (Hl : (i < length text)%nat) by (apply nth_error_Some; congruence).
      destruct (Hcov i x) as (c & Hc' & Hpg & Hcv); [|exact Hn|exact Hx|].
      * rewrite while_body_start. cbv zeta.
        destruct (Z.ltb_spec (snd (window text chunk_size (start st)))
                    (len text)); unfold len in *; lia.
      * exists c. split; [|auto]. apply in_or_app. now right.
  - intros [= <-] Hs. exists []. rewrite app_nil_r. split; [reflexivity|].
    intros i x Hi Hn. exfalso.
    assert ((i < length text)%nat) by (apply nth_error_Some; congruence).
    unfold len in *. lia.
Qed.

End Coverage.

(** The chunks of a call hold every position without white space of the
    cleaned pages. *)
Lemma create_chunks_covers (fuel : nat) (pages : list Page)
    (chunk_size overlap : Z) (result : list Chunk) :
  0 < chunk_size -> 0 <= overlap -> 2 * overlap <= chunk_size ->
  create_chunks fuel pages chunk_size overlap = Some result ->
  forall p i x,
    In p pages ->
    nth_error (clean_text (p_text p)) i = Some x -> is_space x = false ->
    exists c,
      In c result /\ c_page c = p_page p
      /\ covers (clean_text (p_text p)) c i.
Proof.
  intros HS HO HO2. unfold create_chunks.
  destruct (for_pages _ _ _ _ _) as [acc'|] eqn:F; [|discriminate].
  intros [= <-].
  assert (G : forall ps acc acc',
    for_pages fuel chunk_size overlap ps acc = Some acc' ->
    exists new,
      snd acc' = snd acc ++ new
      /\ forall p i x,
           In p ps ->
           nth_error (clean_text (p_text p)) i = Some x ->
           is_space x = false ->
           exists c, In c new /\ c_page c = p_page p
                     /\ covers (clean_text (p_text p)) c i).
  { clear F. induction ps as [|q rest IH]; intros acc acc0; simpl.
    - intros [= <-]. exists []. rewrite app_nil_r. split; [reflexivity|].
      intros ? ? ? [].
    - destruct (for_body fuel chunk_size overlap acc q) as [acc1|] eqn:B;
        [|discriminate].
      intros H. destruct (IH _ _ H) as (new2 & Hc2 & Hcov2).
      clear IH.
      assert (B' : exists new1,
        snd acc1 = snd acc ++ new1
        /\ forall i x,
             nth_error (clean_text (p_text q)) i = Some x ->
             is_space x = false ->
             exists c, In c new1 /\ c_page c = p_page q
                       /\ covers (clean_text (p_text q)) c i).
      { unfold for_body in B.
        destruct (clean_text (p_text q)) as [|d r] eqn:E.
        - injection B as <-. exists []. rewrite app_nil_r.
          split; [reflexivity|]. intros i x Hn. now destruct i.
        - destruct (while _ _ _ _) as [st|] eqn:W; [|discriminate].
          injection B as <-.
          destruct (while_covers _ _ _ _ HS HO HO2 _ _ _ W)
            as (new & Hc & Hcov);
            [simpl; lia|].
          exists new. split; [exact Hc|]. intros i x Hn Hx.
          apply (Hcov i x); [simpl; lia | exact Hn | exact Hx]. }
      destruct B' as (new1 & Hc1 & Hcov1).
      exists (new1 ++ new2). split; [now rewrite Hc2, Hc1, app_assoc|].
      intros p i x [<- | Hp] Hn Hx.
      + destruct (Hcov1 i x Hn Hx) as (c & Hin & Hr). exists c.
        split; [apply in_or_app; now left | exact Hr].
      + destruct (Hcov2 p i x Hp Hn Hx) as (c & Hin & Hr). exists c.
        split; [apply in_or_app; now right | exact Hr]. }
  destruct (G _ _ _ F) as (new & Hc & Hcov). simpl in Hc. rewrite Hc.
  exact Hcov.
Qed.

(** X5.  With a positive chunk size and an overlap between 0 and half of
    it, the chunks lose no text: every position of the cleaned text of a page
    that holds no white space lies in the text of a chunk of that page. *)
Theorem chunks_cover_pages (fuel : nat) (pages : list Page)
    (chunk_size overlap : Z) (result : list Chunk) :
  0 < chunk_size -> 0 <= overlap -> 2 * overlap <= chunk_size ->
  create_chunks fuel pages chunk_size overlap = Some result ->
  forall p i x,
    In p pages ->
    nth_error (clean_text (p_text p)) i = Some x -> is_space x = false ->
    exists c,
      In c result /\ c_page c = p_page p
      /\ covers (clean_text (p_text p)) c i.
Proof. apply create_chunks_covers. Qed.

Lemma chunks_cover_pages_witness :
  exists c,
    In c [mkChunk 0 1 (of_string "Sentence one.") None;
          mkChunk 1 1 (of_string "one. Sentence two.") None;
          mkChunk 2 1 (of_string "two. Sentence three") None;
          mkChunk 3 1 (of_string "three.") None]
    /\ c_page c = p_page (mkPage 1 sentences)
    /\ covers (clean_text (p_text (mkPage 1 sentences))) c 30.
Proof.
  apply (chunks_cover_pages 4 [mkPage 1 sentences] 20 5
           [mkChunk 0 1 (of_string "Sentence one.") None;
            mkChunk 1 1 (of_string "one. Sentence two.") None;
            mkChunk 2 1 (of_string "two. Sentence three") None;
            mkChunk 3 1 (of_string "three.") None])
    with (x := 110).
  - lia.
  - lia.
  - lia.
  - vm_compute. reflexivity.
  - now left.
  - vm_compute. reflexivity.
  - vm_compute. reflexivity.
Defined.

(** X6.  A page whose cleaned text is empty leaves the chunks and the next
    id as they are.  Any other page, for a positive chunk size, appends at
    least one chunk; the first one has the next id and the page's number, and
    its text is a prefix of the cleaned text of the page: no text of the
    page before is carried over. *)
Theorem page_first_chunk (fuel : nat) (chunk_size overlap : Z)
    (acc acc' : Z * list Chunk) (p : Page) :
  0 < chunk_size ->
  for_body fuel chunk_size overlap acc p = Some acc' ->
  (clean_text (p_text p) = [] -> acc' = acc)
  /\ (clean_text (p_text p) <> [] ->
      exists c rest post,
        snd acc' = snd acc ++ c :: rest
        /\ c_id c = fst acc /\ c_page c = p_page p
        /\ clean_text (p_text p) = c_text c ++ post).
Proof.
  intros HS B. split.
  - intros E. unfold for_body in B. rewrite E in B. now injection B.
  - intros Hne. unfold for_body in B.
    destruct (clean_text (p_text p)) as [|d r] eqn:E; [congruence|].
    assert (Hd : is_space d = false).
    { apply (strip_head (sub_blank_lines (sub_ws (sub_ctrl (p_text p)))) r).
      exact E. }
    destruct (while _ _ _ _) as [st|] eqn:W; [|discriminate].
    injection B as <-. cbn [fst snd].
    destruct fuel as [|f]; cbn [while] in W; unfold while_cond at 1 in W;
      cbn [start] in W;
      (destruct (Z.ltb_spec 0 (len (d :: r))) as [_ | Hl];
       [|unfold len in Hl; simpl in Hl; lia]); [discriminate|].
    apply while_result in W. destruct W as (new & Hc & _).
    rewrite while_body_chunks in Hc. cbn [chunks] in Hc.
    destruct (emitted_covers (d :: r) (p_page p) chunk_size HS
                (mkLoop 0 (fst acc) (snd acc)) 0%nat d)
      as (c & Hem & Hid & Hpg & pre & post & Ht & Hpos);
      [simpl; lia | | reflexivity | exact Hd |].
    { pose proof (window_shape (d :: r) chunk_size 0 ltac:(lia) HS) as [Hw _].
      simpl start. lia. }
    exists c, new, post. rewrite Hc, Hem, <- app_assoc.
    split; [reflexivity|]. split; [exact Hid|]. split; [exact Hpg|].
    destruct pre; [exact Ht | simpl in Hpos; lia].
Qed.

Lemma page_first_chunk_witness :
  exists c rest post,
    [mkChunk 0 7 (of_string "A short page.") None] = [] ++ c :: rest
    /\ c_id c = 0 /\ c_page c = 7
    /\ clean_text (p_text short_page) = c_text c ++ post.
Proof.
  apply (page_first_chunk 1 CHUNK_SIZE CHUNK_OVERLAP (0, [])
           (1, [mkChunk 0 7 (of_string "A short page.") None]) short_page);
    [reflexivity | reflexivity | vm_compute; discriminate].
Defined.

(** X7.  A page whose cleaned text is empty can be left out of the call:
    the chunks, their ids included, are those of the other pages. *)
Theorem empty_page_skipped (fuel : nat) (chunk_size overlap : Z)
    (before after : list Page) (p : Page) :
  clean_text (p_text p) = [] ->
  create_chunks fuel (before ++ p :: after) chunk_size overlap
  = create_chunks fuel (before ++ after) chunk_size overlap.
Proof.
  intros E. unfold create_chunks. rewrite !for_pages_app.
  destruct (for_pages fuel chunk_size overlap before (0, [])) as [acc|];
    [|reflexivity].
  cbn [for_pages]. unfold for_body at 1. now rewrite E.
Qed.

Lemma empty_page_skipped_witness :
  create_chunks 1
    ([mkPage 1 (of_string "One.")] ++ mkPage 2 (of_string "  ")
       :: [mkPage 3 (of_string "Three.")]) CHUNK_SIZE CHUNK_OVERLAP
  = create_chunks 1
      ([mkPage 1 (of_string "One.")] ++ [mkPage 3 (of_string "Three.")])
      CHUNK_SIZE CHUNK_OVERLAP.
Proof.
  apply (empty_page_skipped 1 CHUNK_SIZE CHUNK_OVERLAP
           [mkPage 1 (of_string "One.")] [mkPage 3 (of_string "Three.")]
           (mkPage 2 (of_string "  "))).
  reflexivity.
Defined.

(** X8.  The chunks of one call carry the ids 0, 1, 2, ... in the order of
    emission, whatever the chunk size and the overlap, and none of them has
    a source yet. *)
Theorem create_chunks_ids (fuel : nat) (pages : list Page)
    (chunk_size overlap : Z) (result : list Chunk) :
  create_chunks fuel pages chunk_size overlap = Some result ->
  map c_id result = iota 0 (length result)
  /\ Forall (fun c => c_source c = None) result.
Proof.
  intros H. apply create_chunks_result in H. destruct H as (Hm & Hf & _).
  split; [exact Hm|]. eapply Forall_impl; [|exact Hf].
  intros c (p & _ & _ & Hs & _). exact Hs.
Qed.

Lemma create_chunks_ids_witness :
  map c_id [mkChunk 0 1 (of_string "First page.") None;
            mkChunk 1 2 (of_string "Second page.") None]
  = iota 0 2
  /\ Forall (fun c => c_source c = None)
       [mkChunk 0 1 (of_string "First page.") None;
        mkChunk 1 2 (of_string "Second page.") None].
Proof.
  apply (create_chunks_ids 1 two_pages CHUNK_SIZE CHUNK_OVERLAP).
  reflexivity.
Defined.

(** X9.  With a positive chunk size and an overlap of at most half of it,
    [create_chunks] returns: as many iterations per page as the longest
    cleaned page has characters are enough, and any larger bound gives the
    same chunks. *)
Theorem create_chunks_returns (pages : list Page) (chunk_size overlap : Z) :
  0 < chunk_size -> 2 * overlap <= chunk_size ->
  exists result,
    forall fuel, (pages_fuel pages <= fuel)%nat ->
    create_chunks fuel pages chunk_size overlap = Some result.
Proof.
  intros HS HO.
  destruct (create_chunks_terminates (pages_fuel pages) pages chunk_size
              overlap HS HO (Nat.le_refl _)) as [result H].
  exists result. intros fuel Hf. eapply create_chunks_mono; eassumption.
Qed.

Lemma create_chunks_returns_witness :
  exists result,
    forall fuel, (pages_fuel [mkPage 1 sentences] <= fuel)%nat ->
    create_chunks fuel [mkPage 1 sentences] 20 10 = Some result.
Proof.
  apply (create_chunks_returns [mkPage 1 sentences] 20 10); lia.
Defined.

(** ** More on [save_chunks] *)

Lemma iota_nth (a : Z) (n i : nat) :
  (i < n)%nat -> nth_error (iota a n) i = Some (a + Z.of_nat i).
Proof.
  revert a i. induction n as [|n IH]; intros a i Hi; [lia|].
  destruct i as [|i]; simpl; [f_equal; lia|].
  rewrite IH by lia. f_equal. lia.
Qed.

(** X10.  For a positive batch size no file is empty, and no file at all is
    written exactly when there is no chunk. *)
Theorem save_chunks_no_empty_file (chunks : list Chunk)
    (chunks_per_file : Z) (files : list (Z * list Chunk)) (num_files : Z) :
  0 < chunks_per_file ->
  save_chunks chunks chunks_per_file = Some (files, num_files) ->
  Forall (fun f => snd f <> []) files
  /\ (num_files = 0 <-> chunks = [])
  /\ (files = [] <-> chunks = []).
Proof.
  intros HB H. destruct (save_chunks_files _ _ _ _ HB H) as [-> ->].
  clear H.
  pose proof (num_batches_bounds Chunk chunks chunks_per_file HB)
    as (Hn0 & Hlo & Hhi).
  set (n := num_batches Chunk chunks chunks_per_file) in *.
  assert (Hz : n = 0 <-> chunks = []).
  { split.
    - intros E. rewrite E in *. destruct chunks; [reflexivity|].
      unfold len in *. simpl in *. lia.
    - intros ->. unfold len in *. simpl in *. nia. }
  split; [|split; [exact Hz|]].
  - apply Forall_forall. intros f Hf. apply in_map_iff in Hf.
    destruct Hf as (i & <- & Hi). apply iota_In in Hi. cbn [snd].
    intros E.
    assert (Hi' : i * chunks_per_file <= (n - 1) * chunks_per_file) by nia.
    pose proof (batch_length Chunk chunks chunks_per_file HB i
                  ltac:(lia) ltac:(lia)) as Hl.
    rewrite E in Hl. change (len (@nil Chunk)) with 0 in Hl. lia.
  - rewrite <- Hz. unfold range. split.
    + intros E. apply (f_equal (@length _)) in E.
      rewrite length_map, iota_length in E. simpl in E. lia.
    + intros ->. reflexivity.
Qed.

Lemma save_chunks_no_empty_file_witness :
  Forall (fun f => snd f <> [])
    [(0, [mkChunk 0 1 [DOT] None; mkChunk 1 1 [DOT] None]);
     (1, [mkChunk 2 1 [DOT] None; mkChunk 3 1 [DOT] None]);
     (2, [mkChunk 4 1 [DOT] None])].
Proof.
  apply (save_chunks_no_empty_file
           (map (fun i => mkChunk i 1 [DOT] None) (range 5)) 2 _ 3);
    [lia | vm_compute; reflexivity].
Defined.

Lemma batch_lookup (A : Type) (l : list A) (B : Z) (k : nat) :
  0 < B ->
  nth_error (batch A l B (Z.of_nat k / B)) (Z.to_nat (Z.of_nat k mod B))
  = nth_error l k.
Proof.
  intros HB.
  pose proof (Z.div_mod (Z.of_nat k) B ltac:(lia)) as Hd.
  pose proof (Z.mod_pos_bound (Z.of_nat k) B HB) as Hm.
  assert (Hq : 0 <= Z.of_nat k / B) by (apply Z.div_pos; lia).
  rewrite batch_firstn by assumption.
  rewrite nth_error_firstn.
  destruct (Nat.ltb_spec (Z.to_nat (Z.of_nat k mod B)) (Z.to_nat B)); [|lia].
  rewrite nth_error_skipn. f_equal. nia.
Qed.

Lemma save_chunks_nth (chunks : list Chunk) (chunks_per_file : Z)
    (files : list (Z * list Chunk)) (num_files : Z) (k : nat) (c : Chunk) :
  0 < chunks_per_file ->
  save_chunks chunks chunks_per_file = Some (files, num_files) ->
  nth_error chunks k = Some c ->
  exists file_chunks,
    nth_error files (Z.to_nat (Z.of_nat k / chunks_per_file))
    = Some (Z.of_nat k / chunks_per_file, file_chunks)
    /\ nth_error file_chunks (Z.to_nat (Z.of_nat k mod chunks_per_file))
       = Some c.
Proof.
  intros HB H Hk. destruct (save_chunks_files _ _ _ _ HB H) as [-> _].
  clear H.
  pose proof (num_batches_bounds Chunk chunks chunks_per_file HB)
    as (Hn0 & Hlo & Hhi).
  set (n := num_batches Chunk chunks chunks_per_file) in *.
  assert (Hlen : (k < length chunks)%nat) by (apply nth_error_Some; congruence).
  pose proof (Z.div_mod (Z.of_nat k) chunks_per_file ltac:(lia)) as Hd.
  pose proof (Z.mod_pos_bound (Z.of_nat k) chunks_per_file HB) as Hm.
  assert (Hq : 0 <= Z.of_nat k / chunks_per_file < n).
  { split; [apply Z.div_pos; lia|]. unfold len in *. nia. }
  exists (batch Chunk chunks chunks_per_file (Z.of_nat k / chunks_per_file)).
  split.
  - rewrite nth_error_map. unfold range. rewrite iota_nth by lia.
    replace (0 + Z.of_nat (Z.to_nat (Z.of_nat k / chunks_per_file)))
      with (Z.of_nat k / chunks_per_file) by lia.
    reflexivity.
  - rewrite batch_lookup by exact HB. exact Hk.
Qed.

Lemma save_chunks_concat (chunks : list Chunk) (chunks_per_file : Z)
    (files : list (Z * list Chunk)) (num_files : Z) :
  0 < chunks_per_file ->
  save_chunks chunks chunks_per_file = Some (files, num_files) ->
  concat (map snd files) = chunks /\ len files = num_files.
Proof.
  intros HB H. destruct (save_chunks_files _ _ _ _ HB H) as [-> ->].
  clear H.
  pose proof (num_batches_bounds Chunk chunks chunks_per_file HB)
    as (Hn0 & Hlo & Hhi).
  set (n := num_batches Chunk chunks chunks_per_file) in *.
  split.
  - rewrite map_map. cbn [snd]. unfold range.
    rewrite (batches_concat Chunk chunks chunks_per_file HB) by lia.
    simpl. apply firstn_all2. unfold len in *. nia.
  - unfold len, range. rewrite length_map, iota_length. lia.
Qed.

(** X11.  For a positive batch size, the chunk at index [k] of the list is
    in the file numbered [k // chunks_per_file], at the index
    [k % chunks_per_file] of that file. *)
Theorem save_chunks_lookup (chunks : list Chunk) (chunks_per_file : Z)
    (files : list (Z * list Chunk)) (num_files : Z) (k : nat) (c : Chunk) :
  0 < chunks_per_file ->
  save_chunks chunks chunks_per_file = Some (files, num_files) ->
  nth_error chunks k = Some c ->
  exists file_chunks,
    nth_error files (Z.to_nat (Z.of_nat k / chunks_per_file))
    = Some (Z.of_nat k / chunks_per_file, file_chunks)
    /\ nth_error file_chunks (Z.to_nat (Z.of_nat k mod chunks_per_file))
       = Some c.
Proof. apply save_chunks_nth. Qed.

Lemma save_chunks_lookup_witness :
  exists file_chunks,
    nth_error
      [(0, [mkChunk 0 1 [DOT] None; mkChunk 1 1 [DOT] None]);
       (1, [mkChunk 2 1 [DOT] None; mkChunk 3 1 [DOT] None]);
       (2, [mkChunk 4 1 [DOT] None])] (Z.to_nat (Z.of_nat 3 / 2))
    = Some (Z.of_nat 3 / 2, file_chunks)
    /\ nth_error file_chunks (Z.to_nat (Z.of_nat 3 mod 2))
       = Some (mkChunk 3 1 [DOT] None).
Proof.
  apply (save_chunks_lookup
           (map (fun i => mkChunk i 1 [DOT] None) (range 5)) 2 _ 3);
    [lia | vm_compute; reflexivity | vm_compute; reflexivity].
Defined.

(** ** The extractors *)

Lemma extract_from_In (i : Z) (raw : list str) (p : Page) :
  In p (extract_from i raw) ->
  exists j t,
    nth_error raw j = Some t
    /\ p_page p = i + 1 + Z.of_nat j /\ p_text p = strip t.
Proof.
  revert i. induction raw as [|t rest IH]; intros i; simpl; [tauto|].
  intros [<- | H].
  - exists 0%nat, t. simpl. repeat split. lia.
  - destruct (IH _ H) as (j & u & Hn & Hp & Ht).
    exists (S j), u. simpl. repeat split; [exact Hn | lia | exact Ht].
Qed.


(** X12.  Both extractors give one page per page of the PDF, numbered 1, 2,
    ... in that order, with the text of the page trimmed. *)
Theorem extract_text_pages (raw : list str) :
  map p_page (extract_text raw) = iota 1 (length raw)
  /\ map p_text (extract_text raw) = map strip raw
  /\ Forall (fun p => strip (p_text p) = p_text p) (extract_text raw).
Proof.
  unfold extract_text.
  assert (G : forall i,
    map p_page (extract_from i raw) = iota (i + 1) (length raw)
    /\ map p_text (extract_from i raw) = map strip raw
    /\ Forall (fun p => strip (p_text p) = p_text p) (extract_from i raw)).
  { induction raw as [|t rest IH]; intros i; simpl;
      [repeat split; constructor|].
    destruct (IH (i + 1)) as (H1 & H2 & H3).
    rewrite H1, H2. repeat split.
    constructor; [apply strip_idem | exact H3]. }
  apply (G 0).
Qed.

(** ** [main] *)


Lemma main_body_result (fuel : nat) (acc acc' : list Chunk * list Page)
    (pdf : Pdf) :
  main_body fuel acc pdf = Some acc' ->
  exists new,
    fst acc' = fst acc ++ new
    /\ snd acc' = snd acc ++ extract_text (pdf_raw pdf)
    /\ Forall (main_chunk [pdf]) new.
Proof.
  unfold main_body.
  destruct (create_chunks _ _ _ _) as [cs|] eqn:E; [|discriminate].
  intros [= <-]. eexists. split; [reflexivity|]. split; [reflexivity|].
  apply create_chunks_result in E. destruct E as (_ & Hf & _).
  apply Forall_map. eapply Forall_impl; [|exact Hf].
  intros c (p & Hp & Hpg & _ & Hne & Hsub & Hlen).
  apply extract_from_In in Hp. destruct Hp as (j & t & Hn & Hpp & Ht).
  assert (Hj : (j < length (pdf_raw pdf))%nat)
    by (apply nth_error_Some; congruence).
  exists pdf, t. cbn [retag c_source c_page c_text].
  split; [now left|]. split; [reflexivity|].
  rewrite Hpg, Hpp. unfold len.
  split; [lia|].
  split; [replace (Z.to_nat (0 + 1 + Z.of_nat j - 1)) with j by lia;
          exact Hn|].
  split; [exact Hne|]. split; [apply Hlen; discriminate|].
  now rewrite <- Ht.
Qed.

Lemma main_chunk_incl (l1 l2 : list Pdf) (c : Chunk) :
  incl l1 l2 -> main_chunk l1 c -> main_chunk l2 c.
Proof.
  intros Hi (pdf & t & Hin & H). exists pdf, t. split; [now apply Hi | exact H].
Qed.

Lemma main_loop_result (fuel : nat) (pdf_files : list Pdf)
    (acc acc' : list Chunk * list Page) :
  main_loop fuel pdf_files acc = Some acc' ->
  exists new,
    fst acc' = fst acc ++ new
    /\ snd acc'
       = snd acc ++ concat (map (fun pdf => extract_text (pdf_raw pdf))
                              pdf_files)
    /\ Forall (main_chunk pdf_files) new.
Proof.
  revert acc. induction pdf_files as [|pdf rest IH]; intros acc; simpl.
  - intros [= <-]. exists []. rewrite !app_nil_r. repeat split. constructor.
  - destruct (main_body fuel acc pdf) as [acc1|] eqn:B; [|discriminate].
    intros H. destruct (IH _ H) as (new2 & Hc2 & Hp2 & Hf2).
    destruct (main_body_result _ _ _ _ B) as (new1 & Hc1 & Hp1 & Hf1).
    exists (new1 ++ new2). rewrite Hc2, Hc1, Hp2, Hp1, <- !app_assoc.
    split; [reflexivity|]. split; [reflexivity|].
    apply Forall_app. split.
    + eapply Forall_impl; [|exact Hf1]. intros c.
      apply main_chunk_incl. intros x [<- | []]. now left.
    + eapply Forall_impl; [|exact Hf2]. intros c.
      apply main_chunk_incl. intros x Hx. now right.
Qed.

(** X13.  Every chunk that [main] hands to [save_chunks] is tagged with the
    name of one of the PDF files; its page is a page of that file, its text
    is not empty, has at most [CHUNK_SIZE] characters and is a contiguous
    piece of the cleaned text of that page. *)
Theorem main_chunks_wellformed (fuel : nat) (pdf_files : list Pdf)
    (all_chunks : list Chunk) :
  main_chunks fuel pdf_files = Some all_chunks ->
  Forall (main_chunk pdf_files) all_chunks.
Proof.
  unfold main_chunks.
  destruct (main_loop fuel pdf_files ([], [])) as [acc|] eqn:E; [|discriminate].
  intros [= <-]. destruct (main_loop_result _ _ _ _ E) as (new & Hc & _ & Hf).
  simpl in Hc. now rewrite Hc.
Qed.

Lemma main_chunks_wellformed_witness :
  Forall (main_chunk [pdf_a; pdf_b])
    (map (retag 0 "a.pdf")
       [mkChunk 0 1 (of_string "One.") None;
        mkChunk 1 2 (of_string "Two.") None;
        mkChunk 2 3 (of_string "Three.") None]
     ++ map (retag 3 "b.pdf")
          [mkChunk 0 1 (of_string "Four.") None;
           mkChunk 1 2 (of_string "Five.") None]).
Proof.
  apply (main_chunks_wellformed 1 [pdf_a; pdf_b]).
  vm_compute. reflexivity.
Defined.


Lemma main_files_some (fuel : nat) (source_files : list Source)
    (acc acc' : list Chunk * list Page) :
  main_files fuel source_files acc = Some (Some acc') ->
  exists pdf_files,
    source_files = map Readable pdf_files
    /\ main_loop fuel pdf_files acc = Some acc'.
Proof.
  revert acc. induction source_files as [|f rest IH]; intros acc; simpl.
  - intros [= <-]. now exists [].
  - destruct f as [pdf | name]; [|discriminate].
    destruct (main_body fuel acc pdf) as [acc1|] eqn:B; [|discriminate].
    intros H. destruct (IH _ H) as (pdfs & -> & Hl).
    exists (pdf :: pdfs). simpl. now rewrite B.
Qed.







(** X15.  In a completed run of [main], the chunk with id [k] is in the
    batch file numbered [k // 100], at the index [k % 100] of that file. *)
Theorem main_chunk_location (fuel : nat) (now : string)
    (source_files : list Source) (files : list (Z * list Chunk))
    (md : Metadata) (n_pages n_chunks n_files : Z) (c : Chunk) :
  main fuel now source_files
  = Some (Completed files md n_pages n_chunks n_files) ->
  In c (concat (map snd files)) ->
  exists file_chunks,
    nth_error files (Z.to_nat (c_id c / CHUNKS_PER_FILE))
    = Some (c_id c / CHUNKS_PER_FILE, file_chunks)
    /\ nth_error file_chunks (Z.to_nat (c_id c mod CHUNKS_PER_FILE)) = Some c.
Proof.
  unfold main. destruct source_files as [|f0 rest0]; [discriminate|].
  destruct (main_files fuel (f0 :: rest0) ([], []))
    as [[[all_chunks all_pages]|]|] eqn:F; [|discriminate|discriminate].
  destruct (save_chunks all_chunks CHUNKS_PER_FILE) as [[fs n]|] eqn:S;
    [|discriminate].
  intros [= <- _ _ _ _] Hin.
  destruct (main_files_some _ _ _ _ F) as (pdfs & _ & E).
  destruct (save_chunks_concat _ CHUNKS_PER_FILE _ _ eq_refl S) as [Hc _].
  rewrite Hc in Hin. apply In_nth_error in Hin. destruct Hin as [k Hk].
  pose proof (main_loop_ids _ _ _ _ E eq_refl) as Hids. cbn [fst] in Hids.
  assert (Hid : c_id c = Z.of_nat k).
  { assert (Hl : (k < length all_chunks)%nat)
      by (apply nth_error_Some; congruence).
    pose proof (nth_error_map c_id k all_chunks) as Hm.
    rewrite Hk, Hids, iota_nth in Hm by exact Hl. simpl in Hm.
    now injection Hm as <-. }
  rewrite Hid.
  exact (save_chunks_nth _ CHUNKS_PER_FILE _ _ _ _ eq_refl S Hk).
Qed.

Lemma main_chunk_location_witness :
  let c := mkChunk 3 1 (of_string "Four.") (Some "b.pdf"%string) in
  let all :=
    map (retag 0 "a.pdf")
      [mkChunk 0 1 (of_string "One.") None;
       mkChunk 1 2 (of_string "Two.") None;
       mkChunk 2 3 (of_string "Three.") None]
    ++ map (retag 3 "b.pdf")
         [mkChunk 0 1 (of_string "Four.") None;
          mkChunk 1 2 (of_string "Five.") None] in
  exists file_chunks,
    nth_error [(0, all)] (Z.to_nat (c_id c / CHUNKS_PER_FILE))
    = Some (c_id c / CHUNKS_PER_FILE, file_chunks)
    /\ nth_error file_chunks (Z.to_nat (c_id c mod CHUNKS_PER_FILE)) = Some c.
Proof.
  intros c all.
  apply (main_chunk_location 1 "2026" [Readable pdf_a; Readable pdf_b]
           [(0, all)]
           (mkMetadata "4.0" "a.pdf, b.pdf" "2026" 5 5 500 100) 5 5 2 c).
  - vm_compute. reflexivity.
  - vm_compute. tauto.
Defined.

(** ** The cleaner after the extractor *)

Lemma drop_while_all {A : Type} (p : A -> bool) (s : list A) :
  Forall (fun c => p c = true) s -> drop_while p s = [].
Proof. induction 1 as [|c r Hc _ IH]; simpl; [|rewrite Hc]; trivial. Qed.

Lemma drop_while_app_all {A : Type} (p : A -> bool) (s w : list A) :
  Forall (fun c => p c = true) w ->
  drop_while p (s ++ w)
  = match drop_while p s with [] => [] | _ => drop_while p s ++ w end.
Proof.
  intros Hw. induction s as [|c r IH]; simpl; [now apply drop_while_all|].
  destruct (p c); [exact IH | reflexivity].
Qed.

Lemma rstrip_app_all (s w : str) :
  Forall (fun c => is_space c = true) w -> rstrip (s ++ w) = rstrip s.
Proof.
  intros Hw. induction s as [|c r IH]; simpl.
  - induction Hw as [|d w Hd _ IHw]; simpl; [reflexivity|].
    now rewrite IHw, Hd.
  - now rewrite IH.
Qed.

Lemma strip_app_all (s w : str) :
  Forall (fun c => is_space c = true) w -> strip (s ++ w) = strip s.
Proof.
  intros Hw. unfold strip, lstrip. rewrite (drop_while_app_all _ _ _ Hw).
  destruct (drop_while is_space s) as [|d u] eqn:E; [reflexivity|].
  now apply rstrip_app_all.
Qed.

Lemma strip_cons_space (c : Z) (s : str) :
  is_space c = true -> strip (c :: s) = strip s.
Proof. intros H. unfold strip, lstrip. simpl. now rewrite H. Qed.

Lemma strip_sub_ws_drop (u : str) :
  strip (sub_ws (drop_while is_space u)) = strip (sub_ws u).
Proof.
  destruct u as [|d r]; [reflexivity|]. simpl.
  destruct (is_space d) eqn:E; [|reflexivity].
  rewrite (sub_ws_cons d r), E. now rewrite strip_cons_space.
Qed.

Lemma sub_ws_snoc_space (u : str) (x : Z) :
  is_space x = true ->
  exists w, sub_ws (u ++ [x]) = sub_ws u ++ w
            /\ Forall (fun y => is_space y = true) w.
Proof.
  intros Hx. remember (length u) as n eqn:En. revert u En.
  induction n as [n IH] using lt_wf_ind. intros [|c r] En.
  - exists [SP]. simpl. rewrite sub_ws_cons, Hx. simpl.
    split; [now simp sub_ws | now repeat constructor].
  - cbn [app]. rewrite !sub_ws_cons. destruct (is_space c) eqn:Ec.
    + rewrite (drop_while_app_all is_space r [x]) by now repeat constructor.
      destruct (drop_while is_space r) as [|d r'] eqn:D.
      * exists []. rewrite app_nil_r. split; [reflexivity | constructor].
      * destruct (IH (length (d :: r'))) with (u := d :: r')
          as (w & Hw & Hf); [|reflexivity|].
        { pose proof (drop_while_suffix is_space r) as [pre Hp].
          apply (f_equal (@length Z)) in Hp. rewrite length_app, D in Hp.
          simpl in *. lia. }
        exists w. split; [|exact Hf]. cbv iota. cbn [app] in Hw |- *.
        now rewrite Hw.
    + destruct (IH (length r)) with (u := r) as (w & Hw & Hf);
        [simpl in En; lia | reflexivity|].
      exists w. split; [|exact Hf]. cbn [app]. now rewrite Hw.
Qed.

Lemma clean_text_cons_space (c : Z) (t : str) :
  is_space c = true -> clean_text (c :: t) = clean_text t.
Proof.
  intros Hc. rewrite !clean_text_strip_subs. unfold sub_ctrl. simpl.
  destruct (is_ctrl c); simpl; [reflexivity|].
  rewrite sub_ws_cons, Hc, strip_cons_space by reflexivity.
  apply strip_sub_ws_drop.
Qed.

Lemma clean_text_snoc_space (t : str) (c : Z) :
  is_space c = true -> clean_text (t ++ [c]) = clean_text t.
Proof.
  intros Hc. rewrite !clean_text_strip_subs. unfold sub_ctrl.
  rewrite filter_app. simpl.
  destruct (is_ctrl c); simpl; [now rewrite app_nil_r|].
  destruct (sub_ws_snoc_space (filter (fun c => negb (is_ctrl c)) t) c Hc)
    as (w & -> & Hw).
  now apply strip_app_all.
Qed.

Lemma clean_text_app_spaces_l (l t : str) :
  Forall (fun c => is_space c = true) l -> clean_text (l ++ t) = clean_text t.
Proof.
  induction 1 as [|c l Hc _ IH]; simpl; [reflexivity|].
  now rewrite clean_text_cons_space.
Qed.

Lemma clean_text_app_spaces_r (t r : str) :
  Forall (fun c => is_space c = true) r -> clean_text (t ++ r) = clean_text t.
Proof.
  induction r as [|c r IH] using rev_ind; intros H; [now rewrite app_nil_r|].
  apply Forall_app in H. destruct H as [Hr Hc]. inversion Hc; subst.
  rewrite app_assoc, clean_text_snoc_space by assumption. now apply IH.
Qed.

(** X16.  White space at the ends of a text does not change its cleaned
    text: cleaning the text that an extractor has trimmed gives the cleaned
    text of the page as the PDF library returned it. *)
Theorem clean_text_ignores_outer_space (text : str) :
  clean_text (strip text) = clean_text text
  /\ (forall l r,
        Forall (fun c => is_space c = true) l ->
        Forall (fun c => is_space c = true) r ->
        clean_text (l ++ text ++ r) = clean_text text).
Proof.
  assert (G : forall l r,
    Forall (fun c => is_space c = true) l ->
    Forall (fun c => is_space c = true) r ->
    clean_text (l ++ text ++ r) = clean_text text).
  { intros l r Hl Hr.
    now rewrite clean_text_app_spaces_l, clean_text_app_spaces_r. }
  split; [|exact G].
  unfold strip, lstrip.
  destruct (drop_while_prefix_all is_space text) as (l & Hl & Hls).
  destruct (rstrip_suffix_all (drop_while is_space text)) as (r & Hr & Hrs).
  set (m := rstrip (drop_while is_space text)) in *.
  transitivity (clean_text (l ++ m ++ r)).
  - now rewrite clean_text_app_spaces_l, clean_text_app_spaces_r.
  - f_equal. rewrite <- Hr. symmetry. exact Hl.
Qed.

Lemma clean_text_ignores_outer_space_witness :
  clean_text ([SP; NL] ++ of_string "a b" ++ [SP])
  = clean_text (of_string "a b").
Proof.
  apply (proj2 (clean_text_ignores_outer_space (of_string "a b")));
    repeat constructor.
Defined.

(** ** Texts that UTF-8 does not encode *)











